(** * Playback-state coordinator of the music player

    A shallow embedding of [src/contexts/AudioPlayerContext.tsx] (the
    [AudioPlayerProvider]) and of the mini-player condition of
    [src/app/_layout.tsx] ([TabsLayout]).

    The provider keeps seven pieces of React state and exposes asynchronous
    operations that call a native sound engine (expo-av).  An operation is
    embedded as a finite script ([Async]): it reads the state of the render
    it was created in (its closure, here the argument [s]), enqueues state
    updates ([SetState]), writes to the console and awaits native calls.
    Scripts are then given two readings: [exec] runs one script to
    completion, and [istep] interleaves the scripts of several calls that are
    in flight at the same time, switching at the awaits.

    Conventions.  Times are integers of milliseconds ([Z]).  The engine is
    opaque: the model records which handles it has loaded, and lets every
    awaited promise resolve or reject as the environment decides.  An
    operation called through the context is handed the state of the latest
    render; the status callback is not: it reads the state of the render it
    was created in, which the operation [OpStatusUpdate] carries.  Queued
    updates are committed, effects included, before the next event is
    handled.  The one-time
    [Audio.setAudioModeAsync] set-up and the unmount clean-up (whose closure
    holds the initial [null] handle) touch none of the seven cells and are
    left out. *)

From Stdlib Require Import ZArith List String Bool Lia.
Import ListNotations.
Local Open Scope Z_scope.

(** ** Data model *)

(** Modelled from the spec: the [DownloadedSong] type is declared in
    [services/api], which is not among the sources; the provider reads only
    its [id] (compared with [===]) and its [filePath], "an opaque identifier
    plus a local file path". *)
Record DownloadedSong : Type := mkSong { id : string; filePath : string }.

(** [Audio.Sound]: a handle to a track held by the native engine. *)
Definition Sound : Type := nat.

(** [AVPlaybackStatus] of expo-av: either [{ isLoaded: false }] or a loaded
    status, of which the provider reads [isPlaying], the optional
    [durationMillis], [positionMillis] and [didJustFinish]. *)
Inductive AVPlaybackStatus : Type :=
| StatusNotLoaded
| StatusLoaded (playing : bool) (durationMillis : option Z)
               (positionMillis : Z) (didJustFinish : bool).

(** The seven [useState] cells of the provider. *)
Record PlayerState : Type := mkState {
  currentSong : option DownloadedSong;
  isPlaying : bool;
  playbackInstance : option Sound;
  duration : Z;
  position : Z;
  playlist : list DownloadedSong;
  masterPlaylist : list DownloadedSong
}.

(** The initial values given to [useState]. *)
Definition initialState : PlayerState :=
  {| currentSong := None; isPlaying := false; playbackInstance := None;
     duration := 0; position := 0; playlist := []; masterPlaylist := [] |}.

(** A call of one of the seven state setters. *)
Inductive Update : Type :=
| SetCurrentSong (v : option DownloadedSong)
| SetIsPlaying (v : bool)
| SetPlaybackInstance (v : option Sound)
| SetDuration (v : Z)
| SetPosition (v : Z)
| SetPlaylist (v : list DownloadedSong)
| SetMasterPlaylist (v : list DownloadedSong).

Definition applyUpdate (s : PlayerState) (u : Update) : PlayerState :=
  match u with
  | SetCurrentSong v =>
      mkState v (isPlaying s) (playbackInstance s) (duration s) (position s)
              (playlist s) (masterPlaylist s)
  | SetIsPlaying v =>
      mkState (currentSong s) v (playbackInstance s) (duration s) (position s)
              (playlist s) (masterPlaylist s)
  | SetPlaybackInstance v =>
      mkState (currentSong s) (isPlaying s) v (duration s) (position s)
              (playlist s) (masterPlaylist s)
  | SetDuration v =>
      mkState (currentSong s) (isPlaying s) (playbackInstance s) v (position s)
              (playlist s) (masterPlaylist s)
  | SetPosition v =>
      mkState (currentSong s) (isPlaying s) (playbackInstance s) (duration s) v
              (playlist s) (masterPlaylist s)
  | SetPlaylist v =>
      mkState (currentSong s) (isPlaying s) (playbackInstance s) (duration s)
              (position s) v (masterPlaylist s)
  | SetMasterPlaylist v =>
      mkState (currentSong s) (isPlaying s) (playbackInstance s) (duration s)
              (position s) (playlist s) v
  end.

(** [arr.length] as a JavaScript number. *)
Definition len {A : Type} (l : list A) : Z := Z.of_nat (List.length l).

(** [arr[k]]: [undefined] outside the array. *)
Definition elementAt {A : Type} (l : list A) (k : Z) : option A :=
  if k <? 0 then None else nth_error l (Z.to_nat k).

(** [arr.findIndex(p)]: the first position whose element satisfies [p],
    [-1] when there is none. *)
Fixpoint findIndexFrom {A : Type} (p : A -> bool) (l : list A) (k : Z) : Z :=
  match l with
  | [] => -1
  | x :: rest => if p x then k else findIndexFrom p rest (k + 1)
  end.

Definition findIndex {A : Type} (p : A -> bool) (l : list A) : Z :=
  findIndexFrom p l 0.

(** [song => song.id === currentSong.id] *)
Definition sameId (cur song : DownloadedSong) : bool :=
  String.eqb (id song) (id cur).

(** ** Rendering *)

Definition isSetPlaylist (u : Update) : bool :=
  match u with SetPlaylist _ => true | _ => false end.

(** The effect with dependency [[playlist]]:
    [if (playlist.length > 0) setMasterPlaylist(playlist)]. *)
Definition syncMasterPlaylist (s : PlayerState) : PlayerState :=
  if 0 <? len (playlist s) then applyUpdate s (SetMasterPlaylist (playlist s))
  else s.

(** One commit: the queued setter calls are applied in order, and when the
    playlist was assigned the [[playlist]] effect is flushed before the next
    event is handled.  (React re-runs the effect when the array changes
    identity; re-running it on an unchanged playlist writes the master
    playlist that the same commit or an earlier one already wrote.) *)
Definition render (s : PlayerState) (us : list Update) : PlayerState :=
  let s' := fold_left applyUpdate us s in
  if existsb isSetPlaylist us then syncMasterPlaylist s' else s'.

(** ** Asynchronous scripts *)

Definition Error : Type := string.

(** The methods of a sound handle that the provider awaits. *)
Inductive Method : Type :=
| unloadAsync
| pauseAsync
| playAsync
| setPositionAsync (positionMillis : Z)
| stopAsync
| getStatusAsync.

(** The body of an async function: synchronous steps up to the next awaited
    native call, whose promise either resolves or rejects. *)
Inductive Async (A : Type) : Type :=
| Ret (a : A)
| Raise (e : Error)
| SetState (u : Update) (k : Async A)
| ConsoleError (msg : string) (e : Error) (k : Async A)
| AwaitCreate (uri : string)
              (onResolve : Sound -> Async A) (onReject : Error -> Async A)
| AwaitSound (h : Sound) (m : Method)
             (onResolve : AVPlaybackStatus -> Async A)
             (onReject : Error -> Async A).

Arguments Ret {A} a.
Arguments Raise {A} e.
Arguments SetState {A} u k.
Arguments ConsoleError {A} msg e k.
Arguments AwaitCreate {A} uri onResolve onReject.
Arguments AwaitSound {A} h m onResolve onReject.

Fixpoint bind {A B : Type} (m : Async A) (f : A -> Async B) : Async B :=
  match m with
  | Ret a => f a
  | Raise e => Raise e
  | SetState u k => SetState u (bind k f)
  | ConsoleError msg e k => ConsoleError msg e (bind k f)
  | AwaitCreate uri kOk kErr =>
      AwaitCreate uri (fun h => bind (kOk h) f) (fun e => bind (kErr e) f)
  | AwaitSound h meth kOk kErr =>
      AwaitSound h meth (fun st => bind (kOk st) f) (fun e => bind (kErr e) f)
  end.

(** [try { m } catch (error) { handler(error) }] *)
Fixpoint tryCatch {A : Type} (m : Async A) (handler : Error -> Async A)
  : Async A :=
  match m with
  | Ret a => Ret a
  | Raise e => handler e
  | SetState u k => SetState u (tryCatch k handler)
  | ConsoleError msg e k => ConsoleError msg e (tryCatch k handler)
  | AwaitCreate uri kOk kErr =>
      AwaitCreate uri (fun h => tryCatch (kOk h) handler)
                  (fun e => tryCatch (kErr e) handler)
  | AwaitSound h meth kOk kErr =>
      AwaitSound h meth (fun st => tryCatch (kOk st) handler)
                 (fun e => tryCatch (kErr e) handler)
  end.

Declare Scope async_scope.
Delimit Scope async_scope with async.
Notation "x <- m ;; k" := (bind m (fun x => k))
  (at level 61, m at next level, right associativity) : async_scope.
Notation "m ;; k" := (bind m (fun _ => k))
  (at level 61, right associativity) : async_scope.
Local Open Scope async_scope.

Definition setState (u : Update) : Async unit := SetState u (Ret tt).

(** [console.error(msg, error)] *)
Definition consoleError (msg : string) (e : Error) : Async unit :=
  ConsoleError msg e (Ret tt).

(** [await Audio.Sound.createAsync({ uri }, { shouldPlay: true }, callback)] *)
Definition createAsync (uri : string) : Async Sound :=
  AwaitCreate uri (fun h => Ret h) (fun e => Raise e).

(** [await sound.method(...)] *)
Definition soundCall (h : Sound) (m : Method) : Async AVPlaybackStatus :=
  AwaitSound h m (fun st => Ret st) (fun e => Raise e).

(** ** The provider's operations

    Every operation takes the state [s] of the render whose closure it
    belongs to. *)

(** What evaluating [song.filePath] throws when [song] is [undefined]. *)
Definition typeError : Error :=
  "TypeError: cannot read property filePath of undefined"%string.

(** [playSong], on the value it is handed: [effectivePlaylist[k]] is
    [undefined] outside the array, and [song.filePath] is evaluated inside the
    [try], after the unload and the playlist restore. *)
Definition playSongJS (s : PlayerState) (song : option DownloadedSong)
  : Async unit :=
  tryCatch
    ((match playbackInstance s with
      | Some h => soundCall h unloadAsync ;; Ret tt
      | None => Ret tt
      end) ;;
     (if (len (playlist s) =? 0) && (0 <? len (masterPlaylist s))
      then setState (SetPlaylist (masterPlaylist s))
      else Ret tt) ;;
     (match song with
      | None => Raise typeError
      | Some sg =>
          sound <- createAsync (filePath sg) ;;
          setState (SetPlaybackInstance (Some sound)) ;;
          setState (SetCurrentSong (Some sg)) ;;
          setState (SetIsPlaying true)
      end))
    (fun error => consoleError "Error playing song:" error).

Definition playSong (s : PlayerState) (song : DownloadedSong) : Async unit :=
  playSongJS s (Some song).

Definition pauseSong (s : PlayerState) : Async unit :=
  tryCatch
    (match playbackInstance s with
     | Some h => soundCall h pauseAsync ;; Ret tt
     | None => Ret tt
     end)
    (fun error => consoleError "Error pausing song:" error).

Definition resumeSong (s : PlayerState) : Async unit :=
  tryCatch
    (match playbackInstance s with
     | Some h => soundCall h playAsync ;; Ret tt
     | None => Ret tt
     end)
    (fun error => consoleError "Error resuming song:" error).

Definition seekTo (s : PlayerState) (position : Z) : Async unit :=
  match playbackInstance s with
  | Some h => soundCall h (setPositionAsync position) ;; Ret tt
  | None => Ret tt
  end.

Definition getCurrentSongIndex (s : PlayerState) : Z :=
  match currentSong s with
  | None => -1
  | Some cur =>
      let inMaster :=
        if 0 <? len (masterPlaylist s)
        then findIndex (sameId cur) (masterPlaylist s)
        else -1 in
      if 0 <? len (playlist s)
      then let index := findIndex (sameId cur) (playlist s) in
           if negb (index =? -1) then index else inMaster
      else inMaster
  end.

Definition getEffectivePlaylist (s : PlayerState) : list DownloadedSong :=
  if 0 <? len (playlist s) then playlist s else masterPlaylist s.

(** JavaScript's [%] is the truncating remainder, [Z.rem]. *)
Definition playNextSong (s : PlayerState) : Async unit :=
  let effectivePlaylist := getEffectivePlaylist s in
  if len effectivePlaylist =? 0 then Ret tt
  else
    let currentIndex := getCurrentSongIndex s in
    if currentIndex =? -1 then Ret tt
    else
      let nextIndex := Z.rem (currentIndex + 1) (len effectivePlaylist) in
      playSongJS s (elementAt effectivePlaylist nextIndex) ;; Ret tt.

Definition playPreviousSong (s : PlayerState) : Async unit :=
  let effectivePlaylist := getEffectivePlaylist s in
  if len effectivePlaylist =? 0 then Ret tt
  else
    let currentIndex := getCurrentSongIndex s in
    if currentIndex =? -1 then Ret tt
    else
      let previousIndex :=
        Z.rem (currentIndex - 1 + len effectivePlaylist)
              (len effectivePlaylist) in
      playSongJS s (elementAt effectivePlaylist previousIndex) ;; Ret tt.

Definition stopSong (s : PlayerState) : Async unit :=
  (match playbackInstance s with
   | Some h =>
       soundCall h stopAsync ;;
       soundCall h unloadAsync ;;
       setState (SetPlaybackInstance None)
   | None => Ret tt
   end) ;;
  setState (SetCurrentSong None) ;;
  setState (SetIsPlaying false) ;;
  setState (SetPosition 0) ;;
  setState (SetDuration 0).

Definition stopSongAndClear (s : PlayerState) : Async unit :=
  stopSong s ;; Ret tt.

(** The [setPlaylist] of the context value. *)
Definition setPlaylistWithMaster (songs : list DownloadedSong) : Async unit :=
  setState (SetPlaylist songs) ;;
  (if 0 <? len songs then setState (SetMasterPlaylist songs) else Ret tt).

(** A call that is not awaited, in tail position: its rejection never reaches
    the caller. *)
Definition detach (m : Async unit) : Async unit :=
  tryCatch m (fun _ => Ret tt).

(** [status.durationMillis || 0] *)
Definition durationOrZero (durationMillis : option Z) : Z :=
  match durationMillis with Some d => d | None => 0 end.

Definition updatePlaybackStatus (s : PlayerState) (status : AVPlaybackStatus)
  : Async unit :=
  match status with
  | StatusNotLoaded => Ret tt
  | StatusLoaded playing durationMillis positionMillis didJustFinish =>
      setState (SetIsPlaying playing) ;;
      setState (SetDuration (durationOrZero durationMillis)) ;;
      setState (SetPosition positionMillis) ;;
      (if didJustFinish then detach (playNextSong s) else Ret tt)
  end.

(** The callback of the one-second interval, which exists while [isPlaying]. *)
Definition pollPosition (s : PlayerState) : Async unit :=
  if isPlaying s
  then match playbackInstance s with
       | Some h =>
           status <- soundCall h getStatusAsync ;;
           match status with
           | StatusLoaded _ _ positionMillis _ =>
               setState (SetPosition positionMillis)
           | StatusNotLoaded => Ret tt
           end
       | None => Ret tt
       end
  else Ret tt.

(** ** The native engine and the two readings of a script *)

(** What the provider can observe of the engine: which handles are loaded
    and the next handle it will hand out; and the console. *)
Record World : Type := mkWorld {
  state : PlayerState;
  loaded : list Sound;
  fresh : Sound;
  console : list (string * Error)
}.

(** How an awaited native promise settles; the engine decides. *)
Inductive Response : Type :=
| Resolves (status : AVPlaybackStatus)
| Rejects (e : Error).

Inductive Outcome (A : Type) : Type :=
| Resolved (a : A)
| Rejected (e : Error).

Arguments Resolved {A} a.
Arguments Rejected {A} e.

Definition commit (us : list Update) (w : World) : World :=
  mkWorld (render (state w) us) (loaded w) (fresh w) (console w).

Definition logError (msg : string) (e : Error) (w : World) : World :=
  mkWorld (state w) (loaded w) (fresh w) (console w ++ [(msg, e)]).

(** A resolved [createAsync] loads a new handle. *)
Definition loadFresh (w : World) : World :=
  mkWorld (state w) (loaded w ++ [fresh w]) (S (fresh w)) (console w).

(** A resolved [unloadAsync] releases the handle; the other methods leave the
    set of loaded handles as it is. *)
Definition settleSound (h : Sound) (m : Method) (w : World) : World :=
  match m with
  | unloadAsync =>
      mkWorld (state w) (remove Nat.eq_dec h (loaded w)) (fresh w) (console w)
  | _ => w
  end.

Definition rest (oracle : nat -> Response) : nat -> Response :=
  fun n => oracle (S n).

(** [exec t oracle us w] runs [t] to completion with nothing else in flight:
    the k-th awaited native call settles as [oracle k] says.  The updates
    queued since the last await ([us]) are committed at each await and at
    the end. *)
Fixpoint exec {A : Type} (t : Async A) (oracle : nat -> Response)
         (us : list Update) (w : World) : Outcome A * World :=
  match t with
  | Ret a => (Resolved a, commit us w)
  | Raise e => (Rejected e, commit us w)
  | SetState u k => exec k oracle (us ++ [u]) w
  | ConsoleError msg e k => exec k oracle us (logError msg e w)
  | AwaitCreate uri kOk kErr =>
      let w1 := commit us w in
      match oracle 0%nat with
      | Resolves _ => exec (kOk (fresh w1)) (rest oracle) [] (loadFresh w1)
      | Rejects e => exec (kErr e) (rest oracle) [] w1
      end
  | AwaitSound h m kOk kErr =>
      let w1 := commit us w in
      match oracle 0%nat with
      | Resolves st => exec (kOk st) (rest oracle) [] (settleSound h m w1)
      | Rejects e => exec (kErr e) (rest oracle) [] w1
      end
  end.

(** What the provider can be asked to do, and what happens to it.

    [OpStatusUpdate closure status] is a call of [updatePlaybackStatus] by
    the engine.  The function the engine holds is the one handed to
    [createAsync] (l.121-125) or registered by the effect with dependency
    [[playbackInstance]] (l.92-99): it belongs to the render that called
    [playSong], or to the render in which the handle last changed, and
    [closure] is the state of that render, not of the latest one. *)
Inductive Operation : Type :=
| OpPlaySong (song : DownloadedSong)
| OpPauseSong
| OpResumeSong
| OpSeekTo (position : Z)
| OpPlayNextSong
| OpPlayPreviousSong
| OpStopSong
| OpStopSongAndClear
| OpSetPlaylist (songs : list DownloadedSong)
| OpStatusUpdate (closure : PlayerState) (status : AVPlaybackStatus)
| OpTick.

Definition script (s : PlayerState) (op : Operation) : Async unit :=
  match op with
  | OpPlaySong song => playSong s song
  | OpPauseSong => pauseSong s
  | OpResumeSong => resumeSong s
  | OpSeekTo p => seekTo s p
  | OpPlayNextSong => playNextSong s
  | OpPlayPreviousSong => playPreviousSong s
  | OpStopSong => stopSong s
  | OpStopSongAndClear => stopSongAndClear s
  | OpSetPlaylist songs => setPlaylistWithMaster songs
  | OpStatusUpdate closure st => updatePlaybackStatus closure st
  | OpTick => pollPosition s
  end.

(** [runOp op oracle w]: the operation is invoked in the world [w], through
    the context of the latest render or, for a status report, on the
    callback of the render it names, and runs to completion. *)
Definition runOp (op : Operation) (oracle : nat -> Response) (w : World)
  : Outcome unit * World :=
  exec (script (state w) op) oracle [] w.

(** *** Calls in flight

    JavaScript runs a call synchronously up to its first awaited native
    promise; other calls and callbacks run while the promise is pending.  A
    configuration therefore holds, besides the world, the scripts that are
    parked at an await. *)
Record Config : Type := mkConfig {
  world : World;
  pool : list (Async unit)
}.

Inductive Event : Type :=
| Call (op : Operation)
| Settle (i : nat) (r : Response).

Definition awaiting {A : Type} (t : Async A) : bool :=
  match t with
  | AwaitCreate _ _ _ | AwaitSound _ _ _ _ => true
  | _ => false
  end.

(** Runs the synchronous prefix of [t] and commits what it queued. *)
Fixpoint drive (t : Async unit) (us : list Update) (w : World)
  : Async unit * World :=
  match t with
  | SetState u k => drive k (us ++ [u]) w
  | ConsoleError msg e k => drive k us (logError msg e w)
  | _ => (t, commit us w)
  end.

(** The promise awaited by [t] settles. *)
Definition settle (t : Async unit) (r : Response) (w : World)
  : Async unit * World :=
  match t with
  | AwaitCreate uri kOk kErr =>
      match r with
      | Resolves _ => (kOk (fresh w), loadFresh w)
      | Rejects e => (kErr e, w)
      end
  | AwaitSound h m kOk kErr =>
      match r with
      | Resolves st => (kOk st, settleSound h m w)
      | Rejects e => (kErr e, w)
      end
  | _ => (t, w)
  end.

Definition removeAt {A : Type} (i : nat) (l : list A) : list A :=
  firstn i l ++ skipn (S i) l.

Definition park (t : Async unit) (p : list (Async unit)) : list (Async unit) :=
  if awaiting t then p ++ [t] else p.

Definition istep (c : Config) (ev : Event) : Config :=
  match ev with
  | Call op =>
      let '(t, w) := drive (script (state (world c)) op) [] (world c) in
      mkConfig w (park t (pool c))
  | Settle i r =>
      match nth_error (pool c) i with
      | Some t0 =>
          let '(t1, w1) := settle t0 r (world c) in
          let '(t, w) := drive t1 [] w1 in
          mkConfig w (park t (removeAt i (pool c)))
      | None => c
      end
  end.

Definition irun (c : Config) (evs : list Event) : Config :=
  fold_left istep evs c.

Definition initialWorld : World := mkWorld initialState [] 0%nat [].

Definition initialConfig : Config := mkConfig initialWorld [].

(** ** The tab shell ([src/app/_layout.tsx]) *)

(** The value of [router.pathname]. *)
Inductive JsValue : Type :=
| JsUndefined
| JsString (s : string)
| JsFunction (name : string).

(** [v === str] *)
Definition strictEqual (v : JsValue) (str : string) : bool :=
  match v with
  | JsString t => String.eqb t str
  | JsUndefined => false
  | JsFunction _ => false
  end.

(** [v !== str] *)
Definition strictNotEqual (v : JsValue) (str : string) : bool :=
  negb (strictEqual v str).

(** Truthiness of [currentSong], an object or [null]. *)
Definition truthy {A : Type} (v : option A) : bool :=
  match v with Some _ => true | None => false end.

Definition MINI_PLAYER_HEIGHT : Z := 67.

(** [Platform.OS === 'android' ? 70 : 60] *)
Definition TAB_BAR_HEIGHT (android : bool) : Z := if android then 70 else 60.

Inductive Display : Type := DisplayFlex | DisplayNone.

Record Style : Type := mkStyle {
  absolute : bool;
  bottom : Z;
  height : option Z;
  paddingBottom : Z;
  display : Display
}.

(** The elements [TabsLayout] returns, as far as the layout is concerned. *)
#[local] Unset Elimination Schemes.
Inductive Element : Type :=
| View (style : Style) (children : list Element)
| Tabs (sceneContainerPaddingBottom : Z)
| MiniPlayer.
#[local] Set Elimination Schemes.

Definition TabsLayout (currentSong : option DownloadedSong)
           (currentRoute : JsValue) (android : bool) : Element :=
  View (mkStyle false 0 None (if android then 24 else 0) DisplayFlex)
       ([Tabs (if truthy currentSong && strictNotEqual currentRoute "/player"
               then MINI_PLAYER_HEIGHT else 0)]
        ++ (if truthy currentSong && strictNotEqual currentRoute "/player"
            then [View (mkStyle true (TAB_BAR_HEIGHT android)
                                (Some MINI_PLAYER_HEIGHT) 0
                                (if strictEqual currentRoute "/player"
                                 then DisplayNone else DisplayFlex))
                       [MiniPlayer]]
            else [])).

(** A JavaScript object, as the list of its properties. *)
Definition JsObject : Type := list (string * JsValue).

(** [obj.name]: [undefined] when the object has no such property. *)
Fixpoint getProperty (obj : JsObject) (name : string) : JsValue :=
  match obj with
  | [] => JsUndefined
  | (key, v) :: others =>
      if String.eqb key name then v else getProperty others name
  end.

(** What expo-router's [useRouter()] returns, on whichever screen it is
    called: the imperative router, an object of navigation methods.  The
    path of the active route is what the library's [usePathname()] returns;
    it is not a property of this object. *)
Definition useRouter (activeRoute : string) : JsObject :=
  [("back"%string, JsFunction "back");
   ("canGoBack"%string, JsFunction "canGoBack");
   ("navigate"%string, JsFunction "navigate");
   ("push"%string, JsFunction "push");
   ("replace"%string, JsFunction "replace");
   ("setParams"%string, JsFunction "setParams")].

(** [TabsLayout] on the screen [activeRoute] (l.19-21):
    [const router = useRouter(); const currentRoute = router.pathname;] *)
Definition TabsLayoutOn (currentSong : option DownloadedSong)
           (activeRoute : string) (android : bool) : Element :=
  TabsLayout currentSong (getProperty (useRouter activeRoute) "pathname")
             android.

Definition shown (d : Display) : bool :=
  match d with DisplayFlex => true | DisplayNone => false end.

(** Whether a [MiniPlayer] is mounted under views that are all displayed. *)
Fixpoint showsMiniPlayer (e : Element) : bool :=
  match e with
  | View st children => shown (display st) && existsb showsMiniPlayer children
  | Tabs _ => false
  | MiniPlayer => true
  end.

(** * Notions used in the statements *)

(** [cur] occurs in [l] at index [i], and at no smaller index: the index
    [findIndex] resolves a song to when identifiers repeat. *)
Definition occursFirstAt (cur : DownloadedSong) (l : list DownloadedSong)
           (i : nat) : Prop :=
  (exists x, nth_error l i = Some x /\ id x = id cur) /\
  (forall j y, (j < i)%nat -> nth_error l j = Some y -> id y <> id cur).


(** *** Sample inputs *)

Definition songA : DownloadedSong := mkSong "a" "/music/a.mp3".
Definition songB : DownloadedSong := mkSong "b" "/music/b.mp3".
Definition songC : DownloadedSong := mkSong "c" "/music/c.mp3".

(** [songB] is playing on handle 0, out of the playlist [a; b; c]. *)
Definition playingState : PlayerState :=
  {| currentSong := Some songB; isPlaying := true; playbackInstance := Some 0%nat;
     duration := 200000; position := 1500;
     playlist := [songA; songB; songC];
     masterPlaylist := [songA; songB; songC] |}.

Definition playingWorld : World := mkWorld playingState [0%nat] 1%nat [].

(** The engine resolves every call. *)
Definition allResolve : nat -> Response := fun _ => Resolves StatusNotLoaded.

Definition nativeError : Error := "native call failed"%string.

(** The engine rejects every call. *)
Definition allReject : nat -> Response := fun _ => Rejects nativeError.

(** *** Runs with calls in flight *)

(** The setter calls [drive t us w] commits. *)
Fixpoint segment (t : Async unit) (us : list Update) : list Update :=
  match t with
  | SetState u k => segment k (us ++ [u])
  | ConsoleError _ _ k => segment k us
  | _ => us
  end.

(** The setter calls committed by one step. *)
Definition committed (c : Config) (ev : Event) : list Update :=
  match ev with
  | Call op => segment (script (state (world c)) op) []
  | Settle i r =>
      match nth_error (pool c) i with
      | Some t0 => segment (fst (settle t0 r (world c))) []
      | None => []
      end
  end.

(** Every setter call made along a run, in order. *)
Fixpoint history (c : Config) (evs : list Event) : list Update :=
  match evs with
  | [] => []
  | ev :: evs' => committed c ev ++ history (istep c ev) evs'
  end.

(** The lists assigned to the active playlist by [setPlaylist]. *)
Definition playlistAssignments (us : list Update)
  : list (list DownloadedSong) :=
  flat_map (fun u => match u with SetPlaylist v => [v] | _ => [] end) us.

(** The last non-empty list of [ls], [dflt] when there is none. *)
Definition lastNonEmpty (dflt : list DownloadedSong)
           (ls : list (list DownloadedSong)) : list DownloadedSong :=
  fold_left (fun acc l => if 0 <? len l then l else acc) ls dflt.

(** What a segment of a script starts from: the method and status of the
    promise whose resolution resumed it, nothing for a call or a rejection. *)
Definition Trigger : Type := option (Method * AVPlaybackStatus).

Definition triggerOf (t : Async unit) (r : Response) : Trigger :=
  match t, r with
  | AwaitSound _ m _ _, Resolves st => Some (m, st)
  | _, _ => None
  end.

Definition triggerOfEvent (c : Config) (ev : Event) : Trigger :=
  match ev with
  | Call _ => None
  | Settle i r =>
      match nth_error (pool c) i with
      | Some t0 => triggerOf t0 r
      | None => None
      end
  end.

Section Segments.

(** A property of the segments a script commits. *)
Variable Good : Trigger -> list Update -> Prop.

(** Every segment [t] will ever commit is [Good], [us] being what the
    current one has queued so far. *)
Fixpoint Emits (t : Async unit) (trig : Trigger) (us : list Update) : Prop :=
  match t with
  | Ret _ | Raise _ => Good trig us
  | SetState u k => Emits k trig (us ++ [u])
  | ConsoleError _ _ k => Emits k trig us
  | AwaitCreate _ kOk kErr =>
      Good trig us /\
      (forall h, Emits (kOk h) None []) /\
      (forall e, Emits (kErr e) None [])
  | AwaitSound _ m kOk kErr =>
      Good trig us /\
      (forall st, Emits (kOk st) (Some (m, st)) []) /\
      (forall e, Emits (kErr e) None [])
  end.

(** A script parked at an await whose continuations emit [Good] segments. *)
Definition Parked (t : Async unit) : Prop :=
  match t with
  | AwaitCreate _ kOk kErr =>
      (forall h, Emits (kOk h) None []) /\ (forall e, Emits (kErr e) None [])
  | AwaitSound _ m kOk kErr =>
      (forall st, Emits (kOk st) (Some (m, st)) []) /\
      (forall e, Emits (kErr e) None [])
  | _ => False
  end.

End Segments.

(** *** The master playlist *)

(** A segment moves the master playlist to the last non-empty list it
    assigns to the active playlist, and leaves it alone when it assigns
    none. *)
Definition MasterStep (_ : Trigger) (us : list Update) : Prop :=
  forall s, masterPlaylist (render s us)
            = lastNonEmpty (masterPlaylist s) (playlistAssignments us).

(** Whether next/previous hand [target] to [playSong] ([None]: they return
    without a call). *)
Definition navigate (s : PlayerState)
           (target : option (option DownloadedSong)) : Async unit :=
  match target with
  | None => Ret tt
  | Some song => playSongJS s song ;; Ret tt
  end.

(** [s] with [l] as its active playlist. *)
Definition withPlaylist (s : PlayerState) (l : list DownloadedSong)
  : PlayerState :=
  applyUpdate s (SetPlaylist l).

(** *** The callback the engine holds *)

Definition sameHandle (a b : option Sound) : bool :=
  match a, b with
  | Some x, Some y => Nat.eqb x y
  | None, None => true
  | _, _ => false
  end.

(** The effect with dependency [[playbackInstance]] (l.92-99), run after a
    commit that took the state from [before] to [after]: when the handle
    changed, the callback of the new render is registered on the new
    handle, and none when the handle is null; when it did not change the
    registered callback stays, with the state it was created in. *)
Definition resubscribe (before after : PlayerState)
           (registered : option PlayerState) : option PlayerState :=
  if sameHandle (playbackInstance before) (playbackInstance after)
  then registered
  else match playbackInstance after with
       | Some _ => Some after
       | None => None
       end.

(** The state read by the registered callback after a run. *)
Fixpoint registeredAfter (c : Config) (registered : option PlayerState)
         (evs : list Event) : option PlayerState :=
  match evs with
  | [] => registered
  | ev :: evs' =>
      registeredAfter (istep c ev)
        (resubscribe (state (world c)) (state (world (istep c ev))) registered)
        evs'
  end.

(** Every status report of the run is handled by the callback registered
    at that point. *)
Fixpoint Delivered (c : Config) (registered : option PlayerState)
         (evs : list Event) : Prop :=
  match evs with
  | [] => True
  | ev :: evs' =>
      match ev with
      | Call (OpStatusUpdate closure _) => registered = Some closure
      | _ => True
      end /\
      Delivered (istep c ev)
        (resubscribe (state (world c)) (state (world (istep c ev))) registered)
        evs'
  end.

(** The render in which the handle of [songA], played first, was set. *)
Definition playingA : PlayerState :=
  {| currentSong := Some songA; isPlaying := true;
     playbackInstance := Some 0%nat; duration := 0; position := 0;
     playlist := []; masterPlaylist := [] |}.

(** The report of a track that just finished. *)
Definition trackFinished : AVPlaybackStatus :=
  StatusLoaded false (Some 200000) 200000 true.

(** [songB] is started from the playlist [a; b; c]; the playlist is then
    replaced by [b; a]. *)
Definition replacedPlaylistRun : list Event :=
  [Call (OpSetPlaylist [songA; songB; songC]);
   Call (OpPlaySong songB);
   Settle 0 (Resolves (StatusLoaded true None 0 false));
   Call (OpSetPlaylist [songB; songA])].

(** The render in which the handle of [songB] was set in that run. *)
Definition playingBInOldPlaylist : PlayerState :=
  {| currentSong := Some songB; isPlaying := true;
     playbackInstance := Some 0%nat; duration := 0; position := 0;
     playlist := [songA; songB; songC];
     masterPlaylist := [songA; songB; songC] |}.

(** [songA] is started before any playlist is set; [a; b; c] is set
    afterwards. *)
Definition latePlaylistRun : list Event :=
  [Call (OpPlaySong songA);
   Settle 0 (Resolves (StatusLoaded true None 0 false));
   Call (OpSetPlaylist [songA; songB; songC])].

(** *** Position and duration *)

Definition positionWithinDuration (s : PlayerState) : Prop :=
  0 <= position s <= duration s.

(** A loaded report whose position lies between 0 and [d]. *)
Definition reportWithin (st : AVPlaybackStatus) (d : Z) : Prop :=
  match st with
  | StatusNotLoaded => True
  | StatusLoaded _ _ positionMillis _ => 0 <= positionMillis <= d
  end.

(** The status a [getStatusAsync] resolved with lies within the duration
    held by [s]. *)
Definition pollGuard (trig : Trigger) (s : PlayerState) : Prop :=
  match trig with
  | Some (getStatusAsync, st) => reportWithin st (duration s)
  | _ => True
  end.

Definition PositionStep (trig : Trigger) (us : list Update) : Prop :=
  forall s,
    positionWithinDuration s -> pollGuard trig s ->
    positionWithinDuration (render s us).

(** A status report delivered to the callback has its position between 0 and
    [durationMillis || 0]; a status returned to the polling timer has its
    position between 0 and the duration the state holds. *)
Definition eventInRange (c : Config) (ev : Event) : Prop :=
  match ev with
  | Call (OpStatusUpdate _ st) =>
      match st with
      | StatusNotLoaded => True
      | StatusLoaded _ durationMillis _ _ =>
          reportWithin st (durationOrZero durationMillis)
      end
  | Call _ => True
  | Settle _ _ => pollGuard (triggerOfEvent c ev) (state (world c))
  end.

Fixpoint RunInRange (c : Config) (evs : list Event) : Prop :=
  match evs with
  | [] => True
  | ev :: evs' => eventInRange c ev /\ RunInRange (istep c ev) evs'
  end.

(** [songA] is started; the engine then reports position 5000 of a track
    whose duration it does not know. *)
Definition undefinedDurationRun : list Event :=
  [Call (OpPlaySong songA);
   Settle 0 (Resolves (StatusLoaded true None 0 false));
   Call (OpStatusUpdate playingA (StatusLoaded true None 5000 false))].

(** [songA] is started, reports its progress, and is polled once. *)
Definition reportedRun : list Event :=
  [Call (OpPlaySong songA);
   Settle 0 (Resolves (StatusLoaded true (Some 200000) 0 false));
   Call (OpStatusUpdate playingA (StatusLoaded true (Some 200000) 1000 false));
   Call OpTick;
   Settle 0 (Resolves (StatusLoaded true (Some 200000) 2000 false))].

(** *** Loaded handles *)

(** The engine holds no loaded handle, or exactly the one the state holds. *)
Definition holdsOnly (inst : option Sound) (ld : list Sound) : Prop :=
  ld = [] \/ exists h, ld = [h] /\ inst = Some h.

Definition instanceAfter (inst : option Sound) (u : Update) : option Sound :=
  match u with
  | SetPlaybackInstance v => v
  | _ => inst
  end.

(** Running [t] alone, from a state holding [inst] and an engine holding
    [ld]: at most one handle is loaded at every await, and at the end the
    engine holds only the handle of the state. *)
Fixpoint Safe (t : Async unit) (inst : option Sound) (ld : list Sound)
  : Prop :=
  match t with
  | Ret _ | Raise _ => holdsOnly inst ld
  | SetState u k => Safe k (instanceAfter inst u) ld
  | ConsoleError _ _ k => Safe k inst ld
  | AwaitCreate _ kOk kErr =>
      (List.length ld <= 1)%nat /\
      (forall fr, Safe (kOk fr) inst (ld ++ [fr])) /\
      (forall e, Safe (kErr e) inst ld)
  | AwaitSound h m kOk kErr =>
      (List.length ld <= 1)%nat /\
      (forall st, Safe (kOk st) inst
                       (match m with
                        | unloadAsync => remove Nat.eq_dec h ld
                        | _ => ld
                        end)) /\
      (forall e, Safe (kErr e) inst ld)
  end.

(** [t] never loads or unloads a handle and never assigns the handle of the
    state. *)
Fixpoint Quiet (t : Async unit) : Prop :=
  match t with
  | Ret _ | Raise _ => True
  | SetState u k =>
      match u with SetPlaybackInstance _ => False | _ => True end /\ Quiet k
  | ConsoleError _ _ k => Quiet k
  | AwaitCreate _ _ _ => False
  | AwaitSound _ m kOk kErr =>
      match m with unloadAsync => False | _ => True end /\
      (forall st, Quiet (kOk st)) /\ (forall e, Quiet (kErr e))
  end.

(** A call that loads, unloads or assigns the handle is made only while no
    such call is parked at an await; and when it is a status report, its
    callback was created while the state held the handle it holds now.
    Calls that do none of this overlap with anything. *)
Fixpoint HandleCallsApart (c : Config) (evs : list Event) : Prop :=
  match evs with
  | [] => True
  | ev :: evs' =>
      match ev with
      | Call op =>
          Quiet (script (state (world c)) op) \/
          (Forall Quiet (pool c) /\
           match op with
           | OpStatusUpdate closure _ =>
               playbackInstance closure = playbackInstance (state (world c))
           | _ => True
           end)
      | Settle _ _ => True
      end /\ HandleCallsApart (istep c ev) evs'
  end.

(** The same without the condition on callbacks: a call that loads, unloads
    or assigns the handle is made only while no such call is parked. *)
Fixpoint KeptApart (c : Config) (evs : list Event) : Prop :=
  match evs with
  | [] => True
  | ev :: evs' =>
      match ev with
      | Call op =>
          Quiet (script (state (world c)) op) \/ Forall Quiet (pool c)
      | Settle _ _ => True
      end /\ KeptApart (istep c ev) evs'
  end.

(** The invariant of such runs: the parked scripts are quiet and the engine
    holds only the handle of the state, or all but one are quiet and that
    one keeps at most one handle loaded. *)
Definition OneBusy (c : Config) : Prop :=
  (Forall Quiet (pool c) /\
   holdsOnly (playbackInstance (state (world c))) (loaded (world c))) \/
  (exists p1 t p2,
      pool c = p1 ++ t :: p2 /\ Forall Quiet p1 /\ Forall Quiet p2 /\
      Safe t (playbackInstance (state (world c))) (loaded (world c))).

(** [playSong] is called twice before either [createAsync] resolves. *)
Definition overlappingPlays : list Event :=
  [Call (OpPlaySong songA);
   Call (OpPlaySong songB);
   Settle 0 (Resolves (StatusLoaded true None 0 false));
   Settle 0 (Resolves (StatusLoaded true None 0 false))].

(** A playlist is set and [songA] is played; while a poll and a pause are
    awaiting the engine the song is skipped; playback is then stopped. *)
Definition overlappingQuietRun : list Event :=
  [Call (OpSetPlaylist [songA; songB; songC]);
   Call (OpPlaySong songA);
   Settle 0 (Resolves (StatusLoaded true None 0 false));
   Call OpTick;
   Call OpPauseSong;
   Call OpPlayNextSong;
   Settle 0 (Resolves (StatusLoaded true (Some 200000) 1000 false));
   Settle 1 (Resolves StatusNotLoaded);
   Settle 0 (Resolves (StatusLoaded false (Some 200000) 1000 false));
   Settle 0 (Resolves (StatusLoaded true None 0 false));
   Call OpStopSong;
   Settle 0 (Resolves (StatusLoaded false None 0 false));
   Settle 0 (Resolves StatusNotLoaded)].

(** The answers [exec t oracle us w] consumes, in order. *)
Fixpoint answers {A : Type} (t : Async A) (oracle : nat -> Response)
         (us : list Update) (w : World) : list Response :=
  match t with
  | Ret _ | Raise _ => []
  | SetState u k => answers k oracle (us ++ [u]) w
  | ConsoleError msg e k => answers k oracle us (logError msg e w)
  | AwaitCreate uri kOk kErr =>
      let w1 := commit us w in
      oracle 0%nat ::
      match oracle 0%nat with
      | Resolves _ => answers (kOk (fresh w1)) (rest oracle) [] (loadFresh w1)
      | Rejects e => answers (kErr e) (rest oracle) [] w1
      end
  | AwaitSound h m kOk kErr =>
      let w1 := commit us w in
      oracle 0%nat ::
      match oracle 0%nat with
      | Resolves st => answers (kOk st) (rest oracle) [] (settleSound h m w1)
      | Rejects e => answers (kErr e) (rest oracle) [] w1
      end
  end.

(** *** Further sample inputs *)

(** Nothing is loaded and the active playlist was cleared; the master
    playlist still holds [a; b; c]. *)
Definition clearedState : PlayerState :=
  {| currentSong := None; isPlaying := false; playbackInstance := None;
     duration := 0; position := 0; playlist := [];
     masterPlaylist := [songA; songB; songC] |}.

Definition clearedWorld : World := mkWorld clearedState [] 0%nat [].

(** [songA] plays out of [a; b; c] and the playlist is cleared; [playSong
    songB] is called and awaits the unload; the playlist [c; a] is set
    meanwhile. *)
Definition playlistSetDuringUnload : list Event :=
  [Call (OpSetPlaylist [songA; songB; songC]);
   Call (OpPlaySong songA);
   Settle 0 (Resolves (StatusLoaded true None 0 false));
   Call (OpSetPlaylist []);
   Call (OpPlaySong songB);
   Call (OpSetPlaylist [songC; songA])].

(** The engine resolves the first call and rejects the others. *)
Definition secondRejects : nat -> Response :=
  fun k => match k with
           | O => Resolves StatusNotLoaded
           | S _ => Rejects nativeError
           end.

(** *** The rendered tree *)

(** The bottom padding given to the scene container of each [Tabs]. *)
Fixpoint scenePadding (e : Element) : list Z :=
  match e with
  | View _ children => flat_map scenePadding children
  | Tabs p => [p]
  | MiniPlayer => []
  end.

(** Whether a [MiniPlayer] is mounted at all, displayed or not. *)
Fixpoint mountsMiniPlayer (e : Element) : bool :=
  match e with
  | View _ children => existsb mountsMiniPlayer children
  | Tabs _ => false
  | MiniPlayer => true
  end.

(** *** Navigation *)

(** There is no current song, or no song of either playlist carries its
    identifier. *)
Definition currentSongUnresolved (s : PlayerState) : Prop :=
  currentSong s = None \/
  exists cur, currentSong s = Some cur /\
              forall x, In x (playlist s) \/ In x (masterPlaylist s) ->
                        id x <> id cur.

(** *** Invariants of runs with calls in flight *)

(** The active playlist is empty or is the master playlist. *)
Definition playlistInSync (s : PlayerState) : Prop :=
  playlist s = [] \/ playlist s = masterPlaylist s.

Definition SyncStep (_ : Trigger) (us : list Update) : Prop :=
  forall s, playlistInSync s -> playlistInSync (render s us).

(** A current song comes with a handle. *)
Definition songHasHandle (s : PlayerState) : Prop :=
  currentSong s = None \/ playbackInstance s <> None.

Definition HandleStep (_ : Trigger) (us : list Update) : Prop :=
  forall s, songHasHandle s -> songHasHandle (render s us).
(** * Properties *)

(** ** Rendering *)

(** The [[playlist]] effect writes the master playlist only. *)
Ltac render_frame :=
  intros; unfold render;
  match goal with |- context [existsb ?f ?l] => destruct (existsb f l) end;
  [unfold syncMasterPlaylist;
   match goal with |- context [0 <? ?n] => destruct (0 <? n) end|];
  reflexivity.

Lemma render_currentSong s us :
  currentSong (render s us) = currentSong (fold_left applyUpdate us s).
Proof. render_frame. Qed.

Lemma render_isPlaying s us :
  isPlaying (render s us) = isPlaying (fold_left applyUpdate us s).
Proof. render_frame. Qed.

Lemma render_playbackInstance s us :
  playbackInstance (render s us)
  = playbackInstance (fold_left applyUpdate us s).
Proof. render_frame. Qed.

Lemma render_duration s us :
  duration (render s us) = duration (fold_left applyUpdate us s).
Proof. render_frame. Qed.

Lemma render_position s us :
  position (render s us) = position (fold_left applyUpdate us s).
Proof. render_frame. Qed.

Lemma render_playlist s us :
  playlist (render s us) = playlist (fold_left applyUpdate us s).
Proof. render_frame. Qed.

(** ** Arrays *)

Lemma sameId_true (cur x : DownloadedSong) :
  sameId cur x = true <-> id x = id cur.
Proof. unfold sameId. apply String.eqb_eq. Qed.

Lemma sameId_false (cur x : DownloadedSong) :
  sameId cur x = false <-> id x <> id cur.
Proof. unfold sameId. apply String.eqb_neq. Qed.

Lemma findIndexFrom_first (cur : DownloadedSong) :
  forall l i k,
    occursFirstAt cur l i ->
    findIndexFrom (sameId cur) l k = k + Z.of_nat i.
Proof.
  induction l as [|x l IH]; intros i k [[y [Hy Hid]] Hfirst].
  - destruct i; discriminate Hy.
  - destruct i as [|i]; simpl in *.
    + injection Hy as ->.
      apply sameId_true in Hid. rewrite Hid. lia.
    + assert (Hx : sameId cur x = false).
      { apply sameId_false. apply (Hfirst 0%nat x); [lia | reflexivity]. }
      rewrite Hx, (IH i (k + 1)); [lia|].
      split; [exists y; auto|].
      intros j z Hj Hz. apply (Hfirst (S j) z); [lia | exact Hz].
Qed.

Lemma findIndexFrom_absent (cur : DownloadedSong) :
  forall l k,
    (forall x, In x l -> id x <> id cur) ->
    findIndexFrom (sameId cur) l k = -1.
Proof.
  induction l as [|x l IH]; intros k H; simpl; [reflexivity|].
  assert (Hx : sameId cur x = false)
    by (apply sameId_false, H; left; reflexivity).
  rewrite Hx. apply IH. intros y Hy. apply H. right; exact Hy.
Qed.

Lemma occursFirstAt_lt cur l i : occursFirstAt cur l i -> (i < List.length l)%nat.
Proof.
  intros [[x [Hx _]] _]. apply nth_error_Some. rewrite Hx. discriminate.
Qed.

Lemma elementAt_in_range {A : Type} (l : list A) (k : Z) :
  0 <= k < len l ->
  exists x, elementAt l k = Some x /\ nth_error l (Z.to_nat k) = Some x.
Proof.
  intros Hk. unfold elementAt, len in *.
  destruct (k <? 0) eqn:E; [apply Z.ltb_lt in E; lia|].
  destruct (nth_error l (Z.to_nat k)) as [x|] eqn:Hx.
  - exists x; auto.
  - apply nth_error_None in Hx. lia.
Qed.

(** ** Navigation *)

Lemma getCurrentSongIndex_effective (s : PlayerState) cur i :
  currentSong s = Some cur ->
  occursFirstAt cur (getEffectivePlaylist s) i ->
  getCurrentSongIndex s = Z.of_nat i.
Proof.
  intros Hcur Hocc. pose proof (occursFirstAt_lt _ _ _ Hocc) as Hlt.
  unfold getCurrentSongIndex, getEffectivePlaylist in *. rewrite Hcur.
  destruct (0 <? len (playlist s)) eqn:E.
  - unfold findIndex. rewrite (findIndexFrom_first cur _ i 0 Hocc).
    replace (0 + Z.of_nat i =? -1) with false
      by (symmetry; apply Z.eqb_neq; lia).
    simpl. lia.
  - assert (Hm : (0 <? len (masterPlaylist s)) = true)
      by (apply Z.ltb_lt; unfold len; lia).
    rewrite Hm. unfold findIndex.
    rewrite (findIndexFrom_first cur _ i 0 Hocc). lia.
Qed.

(** What next/previous do once the current song is resolved to index [i] of
    an effective playlist of length [n]. *)
Lemma navigation_from_index (s : PlayerState) cur i :
  currentSong s = Some cur ->
  occursFirstAt cur (getEffectivePlaylist s) i ->
  exists next prev,
    nth_error (getEffectivePlaylist s)
      (Z.to_nat ((Z.of_nat i + 1) mod len (getEffectivePlaylist s)))
      = Some next /\
    nth_error (getEffectivePlaylist s)
      (Z.to_nat ((Z.of_nat i - 1 + len (getEffectivePlaylist s))
                 mod len (getEffectivePlaylist s)))
      = Some prev /\
    playNextSong s = (playSong s next ;; Ret tt) /\
    playPreviousSong s = (playSong s prev ;; Ret tt).
Proof.
  intros Hcur Hocc.
  pose proof (occursFirstAt_lt _ _ _ Hocc) as Hlt.
  pose proof (getCurrentSongIndex_effective s cur i Hcur Hocc) as Hidx.
  set (eff := getEffectivePlaylist s) in *.
  assert (Hn : 0 < len eff) by (unfold len; lia).
  assert (Hi : Z.of_nat i < len eff) by (unfold len; lia).
  destruct (elementAt_in_range eff ((Z.of_nat i + 1) mod len eff))
    as [next [Hnext Hnth]]; [apply Z.mod_pos_bound; lia|].
  destruct (elementAt_in_range eff ((Z.of_nat i - 1 + len eff) mod len eff))
    as [prev [Hprev Hpth]]; [apply Z.mod_pos_bound; lia|].
  exists next, prev. split; [exact Hnth|]. split; [exact Hpth|].
  unfold playNextSong, playPreviousSong, playSong. fold eff. rewrite Hidx.
  replace (len eff =? 0) with false by (symmetry; apply Z.eqb_neq; lia).
  replace (Z.of_nat i =? -1) with false by (symmetry; apply Z.eqb_neq; lia).
  rewrite !Z.rem_mod_nonneg by lia.
  rewrite Hnext, Hprev. split; reflexivity.
Qed.

(** C1. When the current song occurs in the effective playlist (the active
    playlist if it is non-empty, the master playlist otherwise), at index [i]
    and at no smaller one, the index the arithmetic uses is [i], an index of
    the effective playlist itself; [playNextSong] hands [playSong] the song
    at index [(i+1) mod n] and [playPreviousSong] the song at index
    [(i-1+n) mod n] of that playlist, [n] being its length. *)
Theorem playNext_playPrevious_wrap_around :
  forall (s : PlayerState) (cur : DownloadedSong) (i : nat),
    currentSong s = Some cur ->
    getEffectivePlaylist s <> [] ->
    occursFirstAt cur (getEffectivePlaylist s) i ->
    getCurrentSongIndex s = Z.of_nat i /\
    exists next prev,
      nth_error (getEffectivePlaylist s)
        (Z.to_nat ((Z.of_nat i + 1) mod len (getEffectivePlaylist s)))
        = Some next /\
      nth_error (getEffectivePlaylist s)
        (Z.to_nat ((Z.of_nat i - 1 + len (getEffectivePlaylist s))
                   mod len (getEffectivePlaylist s)))
        = Some prev /\
      playNextSong s = (playSong s next ;; Ret tt) /\
      playPreviousSong s = (playSong s prev ;; Ret tt).
Proof.
  intros s cur i Hcur _ Hocc. split.
  - exact (getCurrentSongIndex_effective s cur i Hcur Hocc).
  - exact (navigation_from_index s cur i Hcur Hocc).
Qed.

Lemma playNext_playPrevious_wrap_around_witness :
  getCurrentSongIndex playingState = 1 /\
  exists next prev,
    nth_error (getEffectivePlaylist playingState)
      (Z.to_nat ((1 + 1) mod len (getEffectivePlaylist playingState)))
      = Some next /\
    nth_error (getEffectivePlaylist playingState)
      (Z.to_nat ((1 - 1 + len (getEffectivePlaylist playingState))
                 mod len (getEffectivePlaylist playingState)))
      = Some prev /\
    playNextSong playingState = (playSong playingState next ;; Ret tt) /\
    playPreviousSong playingState = (playSong playingState prev ;; Ret tt).
Proof.
  apply (playNext_playPrevious_wrap_around playingState songB 1).
  - reflexivity.
  - discriminate.
  - split.
    + exists songB. split; reflexivity.
    + intros j y Hj Hy. assert (j = 0%nat) as -> by lia.
      injection Hy as <-. discriminate.
Defined.

(** With identifiers that do not repeat, every index holding the current
    song is its first. *)
Lemma occursFirstAt_of_distinct_ids cur l i x :
  NoDup (map id l) ->
  nth_error l i = Some x -> id x = id cur ->
  occursFirstAt cur l i.
Proof.
  intros Hnd Hx Hid. split; [exists x; auto|].
  intros j y Hj Hy Heq.
  assert (Hi : nth_error (map id l) i = Some (id x))
    by (rewrite nth_error_map, Hx; reflexivity).
  assert (Hj' : nth_error (map id l) j = Some (id x))
    by (rewrite nth_error_map, Hy; simpl; congruence).
  assert (i = j); [|lia].
  apply (proj1 (NoDup_nth_error (map id l)) Hnd); [|congruence].
  apply nth_error_Some. rewrite Hi. discriminate.
Qed.

Lemma commit_nil (w : World) : commit [] w = w.
Proof. destruct w; reflexivity. Qed.

Lemma getCurrentSongIndex_unresolved (s : PlayerState) :
  currentSong s = None \/
  (exists cur, currentSong s = Some cur /\
     forall x, In x (playlist s) \/ In x (masterPlaylist s) -> id x <> id cur) ->
  getCurrentSongIndex s = -1.
Proof.
  unfold getCurrentSongIndex. intros [-> | [cur [-> Habs]]]; [reflexivity|].
  unfold findIndex.
  rewrite (findIndexFrom_absent cur (playlist s)) by (intros; apply Habs; auto).
  rewrite (findIndexFrom_absent cur (masterPlaylist s))
    by (intros; apply Habs; auto).
  destruct (0 <? len (playlist s)), (0 <? len (masterPlaylist s)); reflexivity.
Qed.

Lemma navigation_returns_early (s : PlayerState) :
  len (getEffectivePlaylist s) = 0 \/ getCurrentSongIndex s = -1 ->
  playNextSong s = Ret tt /\ playPreviousSong s = Ret tt.
Proof.
  unfold playNextSong, playPreviousSong. intros [-> | ->].
  - split; reflexivity.
  - destruct (len (getEffectivePlaylist s) =? 0); split; reflexivity.
Qed.

(** C5. With no current song, or a current song that occurs in neither
    playlist, or both playlists empty, [playNextSong] and [playPreviousSong]
    return at once: the script is the empty one, so nothing is handed to
    [playSong], no native call is made, and the whole configuration (the
    seven state cells, the engine, the console, the calls in flight) is
    left as it was. *)
Theorem navigation_is_noop_when_unresolved :
  forall (s : PlayerState),
    currentSong s = None \/
    (exists cur, currentSong s = Some cur /\
       forall x, In x (playlist s) \/ In x (masterPlaylist s) ->
                 id x <> id cur) \/
    (playlist s = [] /\ masterPlaylist s = []) ->
    playNextSong s = Ret tt /\ playPreviousSong s = Ret tt /\
    forall (w : World) (p : list (Async unit)) (oracle : nat -> Response),
      state w = s ->
      istep (mkConfig w p) (Call OpPlayNextSong) = mkConfig w p /\
      istep (mkConfig w p) (Call OpPlayPreviousSong) = mkConfig w p /\
      runOp OpPlayNextSong oracle w = (Resolved tt, w) /\
      runOp OpPlayPreviousSong oracle w = (Resolved tt, w).
Proof.
  intros s H.
  assert (Hearly : playNextSong s = Ret tt /\ playPreviousSong s = Ret tt).
  { apply navigation_returns_early.
    destruct H as [H | [H | [Hp Hm]]].
    - right. apply getCurrentSongIndex_unresolved. left; exact H.
    - right. apply getCurrentSongIndex_unresolved. right; exact H.
    - left. unfold getEffectivePlaylist. rewrite Hp, Hm. reflexivity. }
  destruct Hearly as [Hn Hp]. split; [exact Hn|]. split; [exact Hp|].
  intros w p oracle <-. unfold runOp. simpl. rewrite Hn, Hp. simpl.
  rewrite commit_nil. repeat split; reflexivity.
Qed.

Lemma navigation_is_noop_when_unresolved_witness :
  playNextSong initialState = Ret tt /\
  playPreviousSong initialState = Ret tt /\
  forall (w : World) (p : list (Async unit)) (oracle : nat -> Response),
    state w = initialState ->
    istep (mkConfig w p) (Call OpPlayNextSong) = mkConfig w p /\
    istep (mkConfig w p) (Call OpPlayPreviousSong) = mkConfig w p /\
    runOp OpPlayNextSong oracle w = (Resolved tt, w) /\
    runOp OpPlayPreviousSong oracle w = (Resolved tt, w).
Proof.
  apply (navigation_is_noop_when_unresolved initialState).
  left. reflexivity.
Defined.

(** ** Stopping *)

Lemma exec_then_return (m : Async unit) :
  forall oracle us w, exec (m ;; Ret tt) oracle us w = exec m oracle us w.
Proof.
  induction m as [[]| | u k IH | msg e k IH | uri kOk IHok kErr IHerr
                 | h meth kOk IHok kErr IHerr]; intros oracle us w; simpl.
  - reflexivity.
  - reflexivity.
  - apply IH.
  - apply IH.
  - destruct (oracle 0%nat); [apply IHok | apply IHerr].
  - destruct (oracle 0%nat); [apply IHok | apply IHerr].
Qed.

(** Whatever the engine answers, [stopSong] assigns neither playlist. *)
Lemma stopSong_keeps_playlists oracle w :
  playlist (state (snd (runOp OpStopSong oracle w))) = playlist (state w) /\
  masterPlaylist (state (snd (runOp OpStopSong oracle w)))
  = masterPlaylist (state w).
Proof.
  unfold runOp. simpl. unfold stopSong.
  destruct (playbackInstance (state w)) as [h|]; simpl.
  - destruct (oracle 0%nat); simpl; [|split; reflexivity].
    unfold rest. destruct (oracle 1%nat); simpl; split; reflexivity.
  - split; reflexivity.
Qed.

(** C9. [stopSongAndClear] awaits [stopSong] and returns: for every state and
    every behaviour of the engine it ends with the same outcome in the same
    world as [stopSong], and, its name notwithstanding, the active and the
    master playlist are what they were. *)
Theorem stopSongAndClear_is_stopSong :
  forall (oracle : nat -> Response) (w : World),
    runOp OpStopSongAndClear oracle w = runOp OpStopSong oracle w /\
    playlist (state (snd (runOp OpStopSongAndClear oracle w)))
    = playlist (state w) /\
    masterPlaylist (state (snd (runOp OpStopSongAndClear oracle w)))
    = masterPlaylist (state w).
Proof.
  intros oracle w.
  assert (Heq : runOp OpStopSongAndClear oracle w = runOp OpStopSong oracle w).
  { unfold runOp. simpl. unfold stopSongAndClear. apply exec_then_return. }
  split; [exact Heq|]. rewrite Heq. apply stopSong_keeps_playlists.
Qed.

(** C8. When [stopSong] resolves, the current song is null, the playing flag
    is false, position and duration are 0 and the handle is null; the active
    and the master playlist are the ones it started from. *)
Theorem stopSong_resets_playback_state :
  forall (oracle : nat -> Response) (w w' : World),
    runOp OpStopSong oracle w = (Resolved tt, w') ->
    currentSong (state w') = None /\
    isPlaying (state w') = false /\
    position (state w') = 0 /\
    duration (state w') = 0 /\
    playbackInstance (state w') = None /\
    playlist (state w') = playlist (state w) /\
    masterPlaylist (state w') = masterPlaylist (state w).
Proof.
  intros oracle w w'. unfold runOp. simpl. unfold stopSong.
  destruct (playbackInstance (state w)) as [h|] eqn:Hinst; simpl.
  - destruct (oracle 0%nat); simpl; [|discriminate].
    unfold rest. destruct (oracle 1%nat); simpl; [|discriminate].
    intros H. injection H as <-. simpl. repeat split; reflexivity.
  - intros H. injection H as <-. simpl. rewrite Hinst. repeat split; reflexivity.
Qed.

Lemma stopSong_resets_playback_state_witness :
  currentSong (state (snd (runOp OpStopSong allResolve playingWorld))) = None /\
  isPlaying (state (snd (runOp OpStopSong allResolve playingWorld))) = false /\
  position (state (snd (runOp OpStopSong allResolve playingWorld))) = 0 /\
  duration (state (snd (runOp OpStopSong allResolve playingWorld))) = 0 /\
  playbackInstance (state (snd (runOp OpStopSong allResolve playingWorld)))
  = None /\
  playlist (state (snd (runOp OpStopSong allResolve playingWorld)))
  = playlist (state playingWorld) /\
  masterPlaylist (state (snd (runOp OpStopSong allResolve playingWorld)))
  = masterPlaylist (state playingWorld).
Proof.
  apply (stopSong_resets_playback_state allResolve playingWorld).
  reflexivity.
Defined.

(** ** Failures of the native engine *)

(** The three operations written with [try]/[catch] never reject. *)
Lemma caught_operations_resolve (s : PlayerState) (song : option DownloadedSong)
      oracle us w :
  fst (exec (playSongJS s song) oracle us w) = Resolved tt /\
  fst (exec (pauseSong s) oracle us w) = Resolved tt /\
  fst (exec (resumeSong s) oracle us w) = Resolved tt.
Proof.
  unfold playSongJS, pauseSong, resumeSong.
  destruct (playbackInstance s) as [h|]; simpl.
  - destruct (oracle 0%nat); simpl; [|repeat split; reflexivity].
    split; [|split; reflexivity].
    destruct ((len (playlist s) =? 0) && (0 <? len (masterPlaylist s)));
      destruct song as [sg|]; simpl; try reflexivity;
      unfold rest; destruct (oracle 1%nat); reflexivity.
  - split; [|split; reflexivity].
    destruct ((len (playlist s) =? 0) && (0 <? len (masterPlaylist s)));
      destruct song as [sg|]; simpl; try reflexivity;
      destruct (oracle 0%nat); reflexivity.
Qed.

(** What a rejected native call does to [pauseSong]: one console entry. *)
Lemma pauseSong_logs_failure (s : PlayerState) h e oracle w :
  playbackInstance s = Some h ->
  oracle 0%nat = Rejects e ->
  exec (pauseSong s) oracle [] w
  = (Resolved tt, logError "Error pausing song:" e (commit [] w)).
Proof.
  intros Hh Ho. unfold pauseSong. rewrite Hh. simpl. rewrite Ho. reflexivity.
Qed.

(** [seekTo] has no [catch]: the rejection is the caller's. *)
Lemma seekTo_rejects (s : PlayerState) h p e oracle w :
  playbackInstance s = Some h ->
  oracle 0%nat = Rejects e ->
  exec (seekTo s p) oracle [] w = (Rejected e, commit [] w).
Proof.
  intros Hh Ho. unfold seekTo. rewrite Hh. simpl. rewrite Ho. reflexivity.
Qed.

(** [stopSong] has no [catch] either, and a rejected [stopAsync] skips the
    reset. *)
Lemma stopSong_rejects (s : PlayerState) h e oracle w :
  playbackInstance s = Some h ->
  oracle 0%nat = Rejects e ->
  exec (stopSong s) oracle [] w = (Rejected e, commit [] w).
Proof.
  intros Hh Ho. unfold stopSong. rewrite Hh. simpl. rewrite Ho. reflexivity.
Qed.

(** C3, at a failing input. While [songB] plays on a loaded handle and the
    engine rejects the call, [seekTo 1000] and [stopSong] end rejected with
    the engine's error, nothing is written to the console, and [stopSong]
    leaves the playback state as it was; [pauseSong], in the same world,
    resolves and logs. *)
Theorem seekTo_and_stopSong_propagate_native_failure :
  runOp (OpSeekTo 1000) allReject playingWorld
  = (Rejected nativeError, playingWorld) /\
  runOp OpStopSong allReject playingWorld
  = (Rejected nativeError, playingWorld) /\
  runOp OpPauseSong allReject playingWorld
  = (Resolved tt, logError "Error pausing song:" nativeError playingWorld).
Proof.
  unfold runOp. simpl script.
  rewrite (seekTo_rejects _ 0%nat 1000 nativeError) by reflexivity.
  rewrite (stopSong_rejects _ 0%nat nativeError) by reflexivity.
  rewrite (pauseSong_logs_failure _ 0%nat nativeError) by reflexivity.
  rewrite commit_nil. repeat split; reflexivity.
Qed.

(** ** The mini player *)

(** For every value read from [router.pathname], the tab shell shows the
    mini player exactly when a current song is set and that value is not
    the string ['/player']. *)
Lemma miniPlayer_shown_iff :
  forall (currentSong : option DownloadedSong) (currentRoute : JsValue)
         (android : bool),
    showsMiniPlayer (TabsLayout currentSong currentRoute android) = true <->
    (currentSong <> None /\ currentRoute <> JsString "/player").
Proof.
  intros [song|] route android; unfold TabsLayout, strictNotEqual; simpl.
  - destruct route as [|t|f]; simpl.
    + split; [|reflexivity]. intros _. split; discriminate.
    + destruct (String.eqb_spec t "/player") as [->|Hne]; simpl.
      * split; [discriminate|]. intros [_ H]. exfalso. apply H. reflexivity.
      * split; [|reflexivity]. intros _. split; [discriminate|].
        intros H. injection H as H. exact (Hne H).
    + split; [|reflexivity]. intros _. split; discriminate.
  - split; [discriminate|]. intros [H _]. exfalso. apply H. reflexivity.
Qed.

(** C10, at a failing input. [TabsLayout] reads the route from
    [useRouter().pathname]; the router object has no such property, so the
    value is [undefined] on every screen, the test [!== '/player'] always
    passes, and with a current song set the mini player is shown on the
    player screen as on any other. *)
Theorem miniPlayer_shown_on_player_screen :
  (forall (activeRoute : string),
      getProperty (useRouter activeRoute) "pathname" = JsUndefined) /\
  (forall (song : DownloadedSong) (android : bool),
      showsMiniPlayer (TabsLayoutOn (Some song) "/player" android) = true) /\
  (forall (song : DownloadedSong) (activeRoute : string) (android : bool),
      showsMiniPlayer (TabsLayoutOn (Some song) activeRoute android) = true).
Proof.
  split; [intros activeRoute; reflexivity|].
  split; intros; reflexivity.
Qed.

(** ** Status reports *)

Lemma istep_call_returning (c : Config) (op : Operation) :
  script (state (world c)) op = Ret tt -> istep c (Call op) = c.
Proof.
  intros H. destruct c as [w p]. simpl in *. rewrite H. simpl.
  rewrite commit_nil. reflexivity.
Qed.

(** A report with [isLoaded] false changes nothing, whichever callback
    receives it. *)
Lemma unloaded_report_changes_nothing :
  (forall (c : Config) (closure : PlayerState),
      istep c (Call (OpStatusUpdate closure StatusNotLoaded)) = c) /\
  (forall (w : World) (closure : PlayerState) (oracle : nat -> Response),
      runOp (OpStatusUpdate closure StatusNotLoaded) oracle w
      = (Resolved tt, w)).
Proof.
  split.
  - intros c closure. apply istep_call_returning. reflexivity.
  - intros w closure oracle. unfold runOp. simpl. rewrite commit_nil.
    reflexivity.
Qed.

(** A loaded report with [didJustFinish] sets the three status cells and
    calls the [playNextSong] of the callback's own render: when the engine
    resolves its calls, the run ends on the successor of the song that
    render had as current song, in the playlist that render had. *)
Lemma finished_report_advances_in_closure :
  forall (w : World) (closure : PlayerState) (cur : DownloadedSong) (i : nat)
         (playing : bool) (d : option Z) (p : Z) (oracle : nat -> Response),
    currentSong closure = Some cur ->
    occursFirstAt cur (getEffectivePlaylist closure) i ->
    (forall k, exists st, oracle k = Resolves st) ->
    exists next w',
      nth_error (getEffectivePlaylist closure)
        (Z.to_nat ((Z.of_nat i + 1) mod len (getEffectivePlaylist closure)))
        = Some next /\
      runOp (OpStatusUpdate closure (StatusLoaded playing d p true)) oracle w
      = (Resolved tt, w') /\
      currentSong (state w') = Some next /\
      isPlaying (state w') = true /\
      playbackInstance (state w') = Some (fresh w) /\
      In (fresh w) (loaded w') /\
      position (state w') = p /\
      duration (state w') = durationOrZero d.
Proof.
  intros w closure cur i playing d p oracle Hcur Hocc Hres.
  destruct (navigation_from_index closure cur i Hcur Hocc)
    as [next [prev [Hnext [_ [Hplay _]]]]].
  exists next. unfold runOp. simpl script. unfold updatePlaybackStatus.
  rewrite Hplay. unfold playSong, playSongJS, detach.
  destruct (Hres 0%nat) as [st0 H0]. destruct (Hres 1%nat) as [st1 H1].
  destruct (playbackInstance closure) as [h|];
    destruct ((len (playlist closure) =? 0)
              && (0 <? len (masterPlaylist closure))) eqn:Hrestore;
    simpl; unfold rest; rewrite ?H0, ?H1; simpl.
  all: eexists; split; [exact Hnext|]; split; [reflexivity|].
  all: repeat (rewrite ?render_position, ?render_duration; simpl).
  all: repeat split; try reflexivity.
  all: apply in_or_app; right; left; reflexivity.
Qed.

(** C6, at two failing inputs. The callback the engine holds was created in
    the render in which the handle was set, and a finished report runs the
    [playNextSong] of that render.
    - [songB] is started from [a; b; c] and the playlist is then replaced
      by [b; a]: the state has [songB] current in the effective playlist
      [b; a], whose next song is [songA]; the report advances to [songC],
      which that playlist does not hold.
    - [songA] is started before any playlist is set and [a; b; c] is set
      afterwards: the state has [songA] current in [a; b; c]; the report
      makes no native call and [songA] stays the current song. *)
Theorem finished_report_advances_from_an_earlier_render :
  (registeredAfter initialConfig None replacedPlaylistRun
   = Some playingBInOldPlaylist /\
   currentSong (state (world (irun initialConfig replacedPlaylistRun)))
   = Some songB /\
   getEffectivePlaylist (state (world (irun initialConfig replacedPlaylistRun)))
   = [songB; songA] /\
   currentSong
     (state (snd (runOp (OpStatusUpdate playingBInOldPlaylist trackFinished)
                        allResolve
                        (world (irun initialConfig replacedPlaylistRun)))))
   = Some songC) /\
  (registeredAfter initialConfig None latePlaylistRun = Some playingA /\
   currentSong (state (world (irun initialConfig latePlaylistRun)))
   = Some songA /\
   getEffectivePlaylist (state (world (irun initialConfig latePlaylistRun)))
   = [songA; songB; songC] /\
   answers (script (state (world (irun initialConfig latePlaylistRun)))
                   (OpStatusUpdate playingA trackFinished))
           allResolve [] (world (irun initialConfig latePlaylistRun))
   = [] /\
   currentSong
     (state (snd (runOp (OpStatusUpdate playingA trackFinished) allResolve
                        (world (irun initialConfig latePlaylistRun)))))
   = Some songA).
Proof.
  split; repeat split; reflexivity.
Qed.

(** ** Segments of interleaved runs *)

Lemma drive_world (t : Async unit) :
  forall us w,
    state (snd (drive t us w)) = render (state w) (segment t us) /\
    loaded (snd (drive t us w)) = loaded w /\
    fresh (snd (drive t us w)) = fresh w.
Proof.
  induction t as [a| e | u k IH | msg e k IH | uri kOk _ kErr _
                 | h m kOk _ kErr _]; intros us w; simpl;
    try (repeat split; reflexivity).
  - apply IH.
  - destruct (IH us (logError msg e w)) as [H1 [H2 H3]]. auto.
Qed.

Lemma settle_state (t : Async unit) r w :
  state (snd (settle t r w)) = state w.
Proof.
  destruct t as [| | | | uri kOk kErr | h m kOk kErr]; try reflexivity;
    destruct r; try reflexivity.
  destruct m; reflexivity.
Qed.

Lemma istep_state (c : Config) (ev : Event) :
  state (world (istep c ev)) = render (state (world c)) (committed c ev).
Proof.
  destruct ev as [op | i r]; simpl.
  - destruct (drive (script (state (world c)) op) [] (world c)) as [t w] eqn:E.
    simpl. pose proof (drive_world (script (state (world c)) op) [] (world c))
      as [H _]. rewrite E in H. exact H.
  - destruct (nth_error (pool c) i) as [t0|]; [|reflexivity].
    pose proof (settle_state t0 r (world c)) as Hs.
    destruct (settle t0 r (world c)) as [t1 w1]. simpl in *.
    pose proof (drive_world t1 [] w1) as [H _].
    destruct (drive t1 [] w1) as [t w]. simpl in *. rewrite H, Hs. reflexivity.
Qed.

Lemma Forall_removeAt {A : Type} (P : A -> Prop) (i : nat) (l : list A) :
  Forall P l -> Forall P (removeAt i l).
Proof.
  intros H. revert i. unfold removeAt.
  induction H as [|x l Hx Hl IH]; intros [|i]; simpl.
  - constructor.
  - constructor.
  - exact Hl.
  - constructor; [exact Hx | apply IH].
Qed.

Section SegmentFacts.

Variable Good : Trigger -> list Update -> Prop.

Lemma drive_Emits (t : Async unit) :
  forall trig us w,
    Emits Good t trig us ->
    Good trig (segment t us) /\
    (awaiting (fst (drive t us w)) = true -> Parked Good (fst (drive t us w))).
Proof.
  induction t as [a| e | u k IH | msg e k IH | uri kOk _ kErr _
                 | h m kOk _ kErr _]; intros trig us w H; simpl in *.
  - split; [exact H | discriminate].
  - split; [exact H | discriminate].
  - apply IH, H.
  - apply IH, H.
  - destruct H as [Hg Hk]. split; [exact Hg | intros _; exact Hk].
  - destruct H as [Hg Hk]. split; [exact Hg | intros _; exact Hk].
Qed.

Lemma settle_Emits (t0 : Async unit) r w :
  Parked Good t0 -> Emits Good (fst (settle t0 r w)) (triggerOf t0 r) [].
Proof.
  destruct t0 as [| | | | uri kOk kErr | h m kOk kErr]; simpl;
    try contradiction; intros [Hok Herr]; destruct r; simpl; auto.
Qed.

Lemma park_Parked (t : Async unit) (p : list (Async unit)) :
  (awaiting t = true -> Parked Good t) ->
  Forall (Parked Good) p -> Forall (Parked Good) (park t p).
Proof.
  intros Ht Hp. unfold park. destruct (awaiting t); [|exact Hp].
  apply Forall_app. split; [exact Hp|]. constructor; [auto | constructor].
Qed.

(** One step of a configuration whose parked scripts emit [Good] segments
    commits a [Good] segment and parks such scripts only. *)
Lemma istep_Emits (c : Config) (ev : Event) :
  Good None [] ->
  Forall (Parked Good) (pool c) ->
  (forall op, ev = Call op -> Emits Good (script (state (world c)) op) None []) ->
  Good (triggerOfEvent c ev) (committed c ev) /\
  Forall (Parked Good) (pool (istep c ev)).
Proof.
  intros Hnil Hpool Hcall. destruct ev as [op | i r]; simpl.
  - specialize (Hcall op eq_refl).
    destruct (drive_Emits _ None [] (world c) Hcall) as [Hg Hp].
    destruct (drive (script (state (world c)) op) [] (world c)) as [t w].
    simpl in *. split; [exact Hg|]. apply park_Parked; assumption.
  - destruct (nth_error (pool c) i) as [t0|] eqn:Hi; [|split; assumption].
    assert (Ht0 : Parked Good t0).
    { apply nth_error_In in Hi. rewrite Forall_forall in Hpool. auto. }
    pose proof (settle_Emits t0 r (world c) Ht0) as He.
    destruct (settle t0 r (world c)) as [t1 w1]. simpl in *.
    destruct (drive_Emits _ _ _ w1 He) as [Hg Hp].
    destruct (drive t1 [] w1) as [t w]. simpl in *.
    split; [exact Hg|]. apply park_Parked; [assumption|].
    apply Forall_removeAt, Hpool.
Qed.

End SegmentFacts.

(** ** The master playlist *)

Ltac walk :=
  repeat (simpl;
          match goal with
          | |- _ /\ _ => split
          | |- forall _, _ => intro
          end).

Ltac master_leaf :=
  unfold MasterStep, render, syncMasterPlaylist, lastNonEmpty; intros; simpl;
  repeat match goal with
         | H : (0 <? _) = _ |- _ => rewrite H
         end;
  reflexivity.

Lemma script_MasterStep (s : PlayerState) (op : Operation) :
  Emits MasterStep (script s op) None [].
Proof.
  destruct op; simpl script.
  - unfold playSong, playSongJS.
    destruct (playbackInstance s); destruct (len (playlist s) =? 0);
      destruct (0 <? len (masterPlaylist s)) eqn:Hm; walk; master_leaf.
  - unfold pauseSong. destruct (playbackInstance s); walk; master_leaf.
  - unfold resumeSong. destruct (playbackInstance s); walk; master_leaf.
  - unfold seekTo. destruct (playbackInstance s); walk; master_leaf.
  - unfold playNextSong.
    destruct (len (getEffectivePlaylist s) =? 0); [walk; master_leaf|].
    destruct (getCurrentSongIndex s =? -1); [walk; master_leaf|].
    unfold playSongJS.
    destruct (elementAt _ _); destruct (playbackInstance s);
      destruct (len (playlist s) =? 0);
      destruct (0 <? len (masterPlaylist s)) eqn:Hm; walk; master_leaf.
  - unfold playPreviousSong.
    destruct (len (getEffectivePlaylist s) =? 0); [walk; master_leaf|].
    destruct (getCurrentSongIndex s =? -1); [walk; master_leaf|].
    unfold playSongJS.
    destruct (elementAt _ _); destruct (playbackInstance s);
      destruct (len (playlist s) =? 0);
      destruct (0 <? len (masterPlaylist s)) eqn:Hm; walk; master_leaf.
  - unfold stopSong. destruct (playbackInstance s); walk; master_leaf.
  - unfold stopSongAndClear, stopSong.
    destruct (playbackInstance s); walk; master_leaf.
  - unfold setPlaylistWithMaster.
    destruct (0 <? len songs) eqn:Hm; walk; master_leaf.
  - unfold updatePlaybackStatus. destruct status as [|pl d p fin];
      [walk; master_leaf|].
    destruct fin; [|walk; master_leaf].
    unfold detach, playNextSong.
    destruct (len (getEffectivePlaylist closure) =? 0); [walk; master_leaf|].
    destruct (getCurrentSongIndex closure =? -1); [walk; master_leaf|].
    unfold playSongJS.
    destruct (elementAt _ _); destruct (playbackInstance closure);
      destruct (len (playlist closure) =? 0);
      destruct (0 <? len (masterPlaylist closure)) eqn:Hm; walk; master_leaf.
  - unfold pollPosition. destruct (isPlaying s); [|walk; master_leaf].
    destruct (playbackInstance s); walk; try master_leaf.
    destruct st; walk; master_leaf.
Qed.

Lemma lastNonEmpty_app dflt ls1 ls2 :
  lastNonEmpty dflt (ls1 ++ ls2) = lastNonEmpty (lastNonEmpty dflt ls1) ls2.
Proof. unfold lastNonEmpty. apply fold_left_app. Qed.

Lemma playlistAssignments_app us1 us2 :
  playlistAssignments (us1 ++ us2)
  = playlistAssignments us1 ++ playlistAssignments us2.
Proof. unfold playlistAssignments. apply flat_map_app. Qed.

Lemma len_zero_iff {A : Type} (l : list A) : (0 <? len l) = false <-> l = [].
Proof.
  unfold len. destruct l; simpl; split; intros H; try reflexivity;
    discriminate.
Qed.

Lemma lastNonEmpty_nil_iff ls :
  forall dflt,
    lastNonEmpty dflt ls = [] <-> dflt = [] /\ forall l, In l ls -> l = [].
Proof.
  induction ls as [|l ls IH]; intros dflt; simpl.
  - split; [intros H; split; [exact H | contradiction] | intros [H _]; exact H].
  - change (lastNonEmpty (if 0 <? len l then l else dflt) ls = [] <->
            dflt = [] /\ (forall l0, l = l0 \/ In l0 ls -> l0 = [])).
    rewrite IH. destruct (0 <? len l) eqn:E.
    + split.
      * intros [Hl _]. subst l. discriminate E.
      * intros [_ H]. rewrite (H l (or_introl eq_refl)) in E. discriminate E.
    + apply len_zero_iff in E. subst l. split.
      * intros [Hd H]. split; [exact Hd|]. intros l0 [<-|Hin]; auto.
      * intros [Hd H]. split; [exact Hd|]. intros l0 Hin. apply H. auto.
Qed.

(** In a run with any number of calls in flight, each step moves the master
    playlist to the last non-empty list assigned to the active playlist. *)
Lemma master_along_run :
  forall evs c,
    Forall (Parked MasterStep) (pool c) ->
    masterPlaylist (state (world (irun c evs)))
    = lastNonEmpty (masterPlaylist (state (world c)))
                   (playlistAssignments (history c evs)).
Proof.
  induction evs as [|ev evs IH]; intros c Hpool; [reflexivity|].
  change (irun c (ev :: evs)) with (irun (istep c ev) evs).
  change (history c (ev :: evs))
    with (committed c ev ++ history (istep c ev) evs).
  destruct (istep_Emits MasterStep c ev) as [Hg Hp].
  - intros s. reflexivity.
  - exact Hpool.
  - intros op _. apply script_MasterStep.
  - rewrite (IH _ Hp), istep_state, Hg.
    rewrite playlistAssignments_app, lastNonEmpty_app. reflexivity.
Qed.

(** The target next/previous compute from the effective playlist and the
    index of the current song. *)
Lemma playNextSong_navigate (s : PlayerState) :
  playNextSong s
  = navigate s
      (if len (getEffectivePlaylist s) =? 0 then None
       else if getCurrentSongIndex s =? -1 then None
       else Some (elementAt (getEffectivePlaylist s)
                    (Z.rem (getCurrentSongIndex s + 1)
                           (len (getEffectivePlaylist s))))).
Proof.
  unfold playNextSong.
  destruct (len (getEffectivePlaylist s) =? 0); [reflexivity|].
  destruct (getCurrentSongIndex s =? -1); reflexivity.
Qed.

Lemma playPreviousSong_navigate (s : PlayerState) :
  playPreviousSong s
  = navigate s
      (if len (getEffectivePlaylist s) =? 0 then None
       else if getCurrentSongIndex s =? -1 then None
       else Some (elementAt (getEffectivePlaylist s)
                    (Z.rem (getCurrentSongIndex s - 1
                            + len (getEffectivePlaylist s))
                           (len (getEffectivePlaylist s))))).
Proof.
  unfold playPreviousSong.
  destruct (len (getEffectivePlaylist s) =? 0); [reflexivity|].
  destruct (getCurrentSongIndex s =? -1); reflexivity.
Qed.

(** With the active playlist empty, putting the master playlist back as
    the active one changes neither the effective playlist nor the index of
    the current song. *)
Lemma cleared_navigates_over_master (s : PlayerState) :
  playlist s = [] ->
  getEffectivePlaylist (withPlaylist s (masterPlaylist s))
  = getEffectivePlaylist s /\
  getCurrentSongIndex (withPlaylist s (masterPlaylist s))
  = getCurrentSongIndex s.
Proof.
  intros Hp. unfold getEffectivePlaylist, getCurrentSongIndex, withPlaylist.
  simpl. rewrite Hp. simpl.
  destruct (0 <? len (masterPlaylist s)); split; try reflexivity.
  destruct (currentSong s) as [cur|]; [|reflexivity].
  destruct (findIndex (sameId cur) (masterPlaylist s) =? -1);
    reflexivity.
Qed.

(** C4. Along every run, whatever calls are in flight, the master playlist
    is the last non-empty list that was assigned to the active playlist, and
    it is empty only if every list ever assigned was empty.  Consequently,
    once the active playlist is cleared, the effective playlist is that last
    non-empty list, and next/previous hand [playSong] the same song as they
    do when that list is the active playlist. *)
Theorem master_is_last_nonempty_playlist :
  forall (evs : list Event),
    let c := irun initialConfig evs in
    let L := lastNonEmpty [] (playlistAssignments (history initialConfig evs)) in
    let cleared := state (world (istep c (Call (OpSetPlaylist [])))) in
    masterPlaylist (state (world c)) = L /\
    (L = [] <->
     forall l, In l (playlistAssignments (history initialConfig evs)) ->
               l = []) /\
    playlist cleared = [] /\
    masterPlaylist cleared = L /\
    getEffectivePlaylist cleared = L /\
    exists next prev,
      playNextSong cleared = navigate cleared next /\
      playNextSong (withPlaylist cleared L)
      = navigate (withPlaylist cleared L) next /\
      playPreviousSong cleared = navigate cleared prev /\
      playPreviousSong (withPlaylist cleared L)
      = navigate (withPlaylist cleared L) prev.
Proof.
  intros evs c L cleared.
  assert (Hm : masterPlaylist (state (world c)) = L)
    by (apply (master_along_run evs initialConfig); constructor).
  assert (Hpl : playlist cleared = []).
  { unfold cleared. rewrite istep_state, render_playlist. reflexivity. }
  assert (Hml : masterPlaylist cleared = L).
  { unfold cleared. rewrite istep_state. rewrite <- Hm. reflexivity. }
  assert (Heff : getEffectivePlaylist cleared = L).
  { unfold getEffectivePlaylist. rewrite Hpl. exact Hml. }
  split; [exact Hm|]. split.
  { unfold L. rewrite lastNonEmpty_nil_iff. tauto. }
  split; [exact Hpl|]. split; [exact Hml|]. split; [exact Heff|].
  destruct (cleared_navigates_over_master cleared Hpl) as [He Hi].
  rewrite Hml in He, Hi.
  eexists. eexists.
  rewrite (playNextSong_navigate cleared).
  rewrite (playNextSong_navigate (withPlaylist cleared L)).
  rewrite (playPreviousSong_navigate cleared).
  rewrite (playPreviousSong_navigate (withPlaylist cleared L)).
  rewrite He, Hi. repeat split; reflexivity.
Qed.

(** ** Position and duration *)

Ltac position_leaf :=
  simpl; unfold PositionStep, positionWithinDuration, pollGuard, reportWithin in *;
  intros; rewrite render_position, render_duration; simpl in *; lia.

Lemma script_PositionStep (s : PlayerState) (op : Operation) :
  (forall closure st, op = OpStatusUpdate closure st ->
              match st with
              | StatusNotLoaded => True
              | StatusLoaded _ d _ _ => reportWithin st (durationOrZero d)
              end) ->
  Emits PositionStep (script s op) None [].
Proof.
  intros Hst. destruct op; simpl script.
  - unfold playSong, playSongJS.
    destruct (playbackInstance s); destruct (len (playlist s) =? 0);
      destruct (0 <? len (masterPlaylist s)); walk; position_leaf.
  - unfold pauseSong. destruct (playbackInstance s); walk; position_leaf.
  - unfold resumeSong. destruct (playbackInstance s); walk; position_leaf.
  - unfold seekTo. destruct (playbackInstance s); walk; position_leaf.
  - unfold playNextSong.
    destruct (len (getEffectivePlaylist s) =? 0); [walk; position_leaf|].
    destruct (getCurrentSongIndex s =? -1); [walk; position_leaf|].
    unfold playSongJS.
    destruct (elementAt _ _); destruct (playbackInstance s);
      destruct (len (playlist s) =? 0);
      destruct (0 <? len (masterPlaylist s)); walk; position_leaf.
  - unfold playPreviousSong.
    destruct (len (getEffectivePlaylist s) =? 0); [walk; position_leaf|].
    destruct (getCurrentSongIndex s =? -1); [walk; position_leaf|].
    unfold playSongJS.
    destruct (elementAt _ _); destruct (playbackInstance s);
      destruct (len (playlist s) =? 0);
      destruct (0 <? len (masterPlaylist s)); walk; position_leaf.
  - unfold stopSong. destruct (playbackInstance s); walk; position_leaf.
  - unfold stopSongAndClear, stopSong.
    destruct (playbackInstance s); walk; position_leaf.
  - unfold setPlaylistWithMaster.
    destruct (0 <? len songs); walk; position_leaf.
  - specialize (Hst closure status eq_refl).
    unfold updatePlaybackStatus. destruct status as [|pl d p fin];
      [walk; position_leaf|].
    destruct fin; [|walk; position_leaf].
    unfold detach, playNextSong.
    destruct (len (getEffectivePlaylist closure) =? 0); [walk; position_leaf|].
    destruct (getCurrentSongIndex closure =? -1); [walk; position_leaf|].
    unfold playSongJS.
    destruct (elementAt _ _); destruct (playbackInstance closure);
      destruct (len (playlist closure) =? 0);
      destruct (0 <? len (masterPlaylist closure)); walk; position_leaf.
  - unfold pollPosition. destruct (isPlaying s); [|walk; position_leaf].
    destruct (playbackInstance s); walk; try position_leaf.
    destruct st; walk; position_leaf.
Qed.

Lemma position_along_run :
  forall evs c,
    Forall (Parked PositionStep) (pool c) ->
    positionWithinDuration (state (world c)) ->
    RunInRange c evs ->
    positionWithinDuration (state (world (irun c evs))).
Proof.
  induction evs as [|ev evs IH]; intros c Hpool Hinv Hrun; [exact Hinv|].
  change (irun c (ev :: evs)) with (irun (istep c ev) evs).
  destruct Hrun as [Hev Hrun].
  destruct (istep_Emits PositionStep c ev) as [Hg Hp].
  - intros s Hs _. exact Hs.
  - exact Hpool.
  - intros op ->. apply script_PositionStep.
    intros closure st ->. exact Hev.
  - apply IH; [exact Hp | | exact Hrun].
    rewrite istep_state. apply Hg; [exact Hinv|].
    destruct ev as [op | i r]; [exact I | exact Hev].
Qed.

(** In the two sample runs below, each report is handled by the callback
    registered on the handle at that point of the run. *)
Lemma sample_reports_are_delivered :
  Delivered initialConfig None reportedRun /\
  Delivered initialConfig None undefinedDurationRun.
Proof.
  split; cbn; repeat split; reflexivity.
Qed.

(** C2, as the code has it. Along every run, whatever calls are in flight,
    [0 <= position <= duration] holds provided the engine's reports are in
    range: each loaded status report delivered to the callback has
    [0 <= positionMillis <= (durationMillis || 0)], and each status returned
    to the polling timer has its position between 0 and the duration the
    state then holds.  The provider copies what the engine reports and never
    clamps. *)
Theorem position_within_duration_when_reports_in_range :
  forall (evs : list Event),
    RunInRange initialConfig evs ->
    positionWithinDuration (state (world (irun initialConfig evs))).
Proof.
  intros evs Hrun. apply position_along_run.
  - constructor.
  - unfold positionWithinDuration. simpl. lia.
  - exact Hrun.
Qed.

Lemma position_within_duration_when_reports_in_range_witness :
  positionWithinDuration (state (world (irun initialConfig reportedRun))).
Proof.
  apply (position_within_duration_when_reports_in_range reportedRun).
  simpl. repeat split; lia.
Defined.

(** C2, as stated, fails: after a loaded report that carries position 5000
    and no [durationMillis], the state holds position 5000 and duration 0. *)
Lemma position_exceeds_duration :
  position (state (world (irun initialConfig undefinedDurationRun))) = 5000 /\
  duration (state (world (irun initialConfig undefinedDurationRun))) = 0 /\
  ~ positionWithinDuration
      (state (world (irun initialConfig undefinedDurationRun))).
Proof.
  split; [reflexivity|]. split; [reflexivity|].
  unfold positionWithinDuration. simpl. lia.
Qed.

(** ** Loaded handles *)

Lemma holdsOnly_atMostOne inst ld :
  holdsOnly inst ld -> (List.length ld <= 1)%nat.
Proof. intros [-> | [h [-> _]]]; simpl; lia. Qed.

Lemma Safe_atMostOne (t : Async unit) :
  forall inst ld, Safe t inst ld -> (List.length ld <= 1)%nat.
Proof.
  induction t as [a| e | u k IH | msg e k IH | uri kOk _ kErr _
                 | h m kOk _ kErr _]; intros inst ld H; simpl in H.
  - exact (holdsOnly_atMostOne _ _ H).
  - exact (holdsOnly_atMostOne _ _ H).
  - exact (IH _ _ H).
  - exact (IH _ _ H).
  - exact (proj1 H).
  - exact (proj1 H).
Qed.

Lemma applyUpdate_playbackInstance s u :
  playbackInstance (applyUpdate s u) = instanceAfter (playbackInstance s) u.
Proof. destruct u; reflexivity. Qed.

Lemma drive_Safe (t : Async unit) :
  forall us w,
    Safe t (playbackInstance (fold_left applyUpdate us (state w))) (loaded w) ->
    Safe (fst (drive t us w))
         (playbackInstance (state (snd (drive t us w))))
         (loaded (snd (drive t us w))).
Proof.
  induction t as [a| e | u k IH | msg e k IH | uri kOk _ kErr _
                 | h m kOk _ kErr _]; intros us w H; simpl in *;
    rewrite ?render_playbackInstance; try exact H.
  - apply IH. rewrite fold_left_app. simpl.
    rewrite applyUpdate_playbackInstance. exact H.
  - apply IH. exact H.
Qed.

Lemma drive_awaiting_or_done (t : Async unit) us w :
  awaiting (fst (drive t us w)) = false ->
  Safe (fst (drive t us w))
       (playbackInstance (state (snd (drive t us w))))
       (loaded (snd (drive t us w))) ->
  holdsOnly (playbackInstance (state (snd (drive t us w))))
            (loaded (snd (drive t us w))).
Proof.
  revert us w.
  induction t as [a| e | u k IH | msg e k IH | uri kOk _ kErr _
                 | h m kOk _ kErr _]; intros us w Haw H; simpl in *;
    try exact H; try discriminate.
  - exact (IH _ _ Haw H).
  - exact (IH _ _ Haw H).
Qed.

Lemma settle_Safe (t0 : Async unit) r w :
  Safe t0 (playbackInstance (state w)) (loaded w) ->
  Safe (fst (settle t0 r w))
       (playbackInstance (state (snd (settle t0 r w))))
       (loaded (snd (settle t0 r w))).
Proof.
  destruct t0 as [| | | | uri kOk kErr | h m kOk kErr]; simpl;
    try (intros H; exact H); intros [_ [Hok Herr]]; destruct r as [st|e];
    simpl.
  - apply Hok.
  - apply Herr.
  - destruct m; apply Hok.
  - apply Herr.
Qed.

Ltac safe_walk :=
  repeat (simpl;
          repeat match goal with
                 | |- context [Nat.eq_dec ?a ?a] =>
                     destruct (Nat.eq_dec a a); [|congruence]
                 end;
          match goal with
          | |- _ /\ _ => split
          | |- forall _, _ => intro
          end).

Ltac safe_leaf :=
  simpl; unfold holdsOnly;
  first [ lia
        | left; reflexivity
        | right; eexists; split; reflexivity ].

Ltac safe_cases s H :=
  let h := fresh "h" in
  let E := fresh "E" in
  destruct (playbackInstance s) as [h|] eqn:E;
  [ destruct H as [-> | [? [-> H]]]; [| injection H as ->]
  | destruct H as [-> | [? [-> H]]]; [| discriminate H] ].

(** Started from an engine that holds only the handle of the state, every
    operation keeps at most one handle loaded throughout and ends the same
    way. *)
Lemma script_Safe (s : PlayerState) (op : Operation) (ld : list Sound) :
  holdsOnly (playbackInstance s) ld ->
  match op with
  | OpStatusUpdate closure _ => playbackInstance closure = playbackInstance s
  | _ => True
  end ->
  Safe (script s op) (playbackInstance s) ld.
Proof.
  intros H Hcl. destruct op; simpl script.
  - unfold playSong, playSongJS. safe_cases s H;
      destruct (len (playlist s) =? 0);
      destruct (0 <? len (masterPlaylist s)); safe_walk; safe_leaf.
  - unfold pauseSong. safe_cases s H; safe_walk; safe_leaf.
  - unfold resumeSong. safe_cases s H; safe_walk; safe_leaf.
  - unfold seekTo. safe_cases s H; safe_walk; safe_leaf.
  - unfold playNextSong.
    destruct (len (getEffectivePlaylist s) =? 0); [exact H|].
    destruct (getCurrentSongIndex s =? -1); [exact H|].
    unfold playSongJS.
    destruct (elementAt _ _); safe_cases s H;
      destruct (len (playlist s) =? 0);
      destruct (0 <? len (masterPlaylist s)); safe_walk; safe_leaf.
  - unfold playPreviousSong.
    destruct (len (getEffectivePlaylist s) =? 0); [exact H|].
    destruct (getCurrentSongIndex s =? -1); [exact H|].
    unfold playSongJS.
    destruct (elementAt _ _); safe_cases s H;
      destruct (len (playlist s) =? 0);
      destruct (0 <? len (masterPlaylist s)); safe_walk; safe_leaf.
  - unfold stopSong. safe_cases s H; safe_walk; safe_leaf.
  - unfold stopSongAndClear, stopSong. safe_cases s H; safe_walk; safe_leaf.
  - unfold setPlaylistWithMaster.
    destruct (0 <? len songs); simpl; exact H.
  - rewrite <- Hcl in *. clear Hcl.
    unfold updatePlaybackStatus. destruct status as [|pl d p fin];
      [exact H|].
    destruct fin; [|exact H].
    unfold detach, playNextSong.
    destruct (len (getEffectivePlaylist closure) =? 0); [exact H|].
    destruct (getCurrentSongIndex closure =? -1); [exact H|].
    unfold playSongJS.
    destruct (elementAt _ _); safe_cases closure H;
      destruct (len (playlist closure) =? 0);
      destruct (0 <? len (masterPlaylist closure)); safe_walk; safe_leaf.
  - unfold pollPosition. destruct (isPlaying s); [|exact H].
    safe_cases s H; safe_walk; try safe_leaf;
      destruct st; safe_walk; safe_leaf.
Qed.

(** *** Quiet scripts *)

Lemma Quiet_drive (t : Async unit) :
  forall us w,
    Quiet t ->
    Quiet (fst (drive t us w)) /\
    loaded (snd (drive t us w)) = loaded w /\
    playbackInstance (state (snd (drive t us w)))
    = playbackInstance (fold_left applyUpdate us (state w)).
Proof.
  induction t as [a| e | u k IH | msg e k IH | uri kOk _ kErr _
                 | h m kOk _ kErr _]; intros us w H; simpl in *;
    rewrite ?render_playbackInstance; try (repeat split; auto; fail).
  - destruct H as [Hu Hk]. destruct (IH (us ++ [u]) w Hk) as [H1 [H2 H3]].
    repeat split; try assumption. rewrite H3, fold_left_app. simpl.
    rewrite applyUpdate_playbackInstance. destruct u; try reflexivity.
    contradiction.
  - destruct (IH us (logError msg e w) H) as [H1 [H2 H3]]. auto.
  - split; [exact H | split; reflexivity].
Qed.

Lemma Quiet_settle (t0 : Async unit) r w :
  Quiet t0 ->
  Quiet (fst (settle t0 r w)) /\
  loaded (snd (settle t0 r w)) = loaded w /\
  state (snd (settle t0 r w)) = state w.
Proof.
  destruct t0 as [| | | | uri kOk kErr | h m kOk kErr];
    try (intros H; split; [exact H | split; reflexivity]); simpl.
  - contradiction.
  - intros [Hm [Hok Herr]]. destruct r as [st|e]; simpl.
    + destruct m; try contradiction; repeat split; auto.
    + repeat split; auto.
Qed.

(** A quiet script changes neither the handle nor what is loaded, so what
    is safe at its start is what its leaves see. *)
Lemma Quiet_Safe_holdsOnly (t : Async unit) :
  forall inst ld, Quiet t -> Safe t inst ld -> holdsOnly inst ld.
Proof.
  induction t as [a| e | u k IH | msg e k IH | uri kOk _ kErr _
                 | h m kOk IHok kErr _]; intros inst ld Hq Hs; simpl in *.
  - exact Hs.
  - exact Hs.
  - destruct Hq as [Hu Hk]. apply IH; [exact Hk|].
    destruct u; try exact Hs. contradiction.
  - apply IH; assumption.
  - contradiction.
  - destruct Hq as [Hm [Hok _]]. destruct Hs as [_ [Hs _]].
    apply (IHok StatusNotLoaded); [apply Hok|].
    specialize (Hs StatusNotLoaded). destruct m; try exact Hs. contradiction.
Qed.

Lemma Forall_park (P : Async unit -> Prop) t p :
  P t -> Forall P p -> Forall P (park t p).
Proof.
  intros Ht Hp. unfold park. destruct (awaiting t); [|exact Hp].
  apply Forall_app. split; [exact Hp | constructor; [exact Ht | constructor]].
Qed.

Lemma removeAt_In {A : Type} (l : list A) :
  forall i x, In x (removeAt i l) -> In x l.
Proof.
  unfold removeAt. induction l as [|y l IH]; intros [|i] x H; simpl in *;
    try contradiction.
  - right. exact H.
  - destruct H as [-> | H]; [left; reflexivity | right; exact (IH i x H)].
Qed.

(** Where the [i]-th script of a pool with one marked script lies. *)
Lemma nth_error_around {A : Type} (p1 : list A) (t : A) (p2 : list A) :
  forall i t0,
    nth_error (p1 ++ t :: p2) i = Some t0 ->
    (In t0 p1 /\ exists p1', removeAt i (p1 ++ t :: p2) = p1' ++ t :: p2 /\
                             forall x, In x p1' -> In x p1) \/
    (t0 = t /\ removeAt i (p1 ++ t :: p2) = p1 ++ p2) \/
    (In t0 p2 /\ exists p2', removeAt i (p1 ++ t :: p2) = p1 ++ t :: p2' /\
                             forall x, In x p2' -> In x p2).
Proof.
  induction p1 as [|x p1 IH]; intros i t0 H; simpl in *.
  - destruct i as [|i]; simpl in *.
    + right; left. injection H as <-. split; reflexivity.
    + right; right. split; [exact (nth_error_In _ _ H)|].
      exists (removeAt i p2). split; [reflexivity|]. apply removeAt_In.
  - destruct i as [|i]; simpl in *.
    + left. injection H as <-. split; [left; reflexivity|].
      exists p1. split; [reflexivity | intros y Hy; right; exact Hy].
    + change (removeAt (S i) (x :: p1 ++ t :: p2))
        with (x :: removeAt i (p1 ++ t :: p2)).
      destruct (IH i t0 H)
        as [[Hin [p1' [E Hsub]]] | [[-> E] | [Hin [p2' [E Hsub]]]]].
      * left. split; [right; exact Hin|].
        exists (x :: p1'). split; [rewrite E; reflexivity|].
        intros y [-> | Hy]; [left; reflexivity | right; exact (Hsub _ Hy)].
      * right; left. split; [reflexivity | rewrite E; reflexivity].
      * right; right. split; [exact Hin|].
        exists p2'. split; [rewrite E; reflexivity | exact Hsub].
Qed.

Lemma Forall_sub {A : Type} (P : A -> Prop) (l l' : list A) :
  (forall x, In x l' -> In x l) -> Forall P l -> Forall P l'.
Proof.
  intros Hsub H. rewrite Forall_forall in *. auto.
Qed.

(** *** One step *)

Lemma OneBusy_after_safe (t : Async unit) (w : World) (p : list (Async unit)) :
  Forall Quiet p ->
  Safe t (playbackInstance (state w)) (loaded w) ->
  OneBusy (mkConfig (snd (drive t [] w)) (park (fst (drive t [] w)) p)).
Proof.
  intros Hp H. pose proof (drive_Safe t [] w H) as Hd.
  unfold OneBusy, park. simpl.
  destruct (awaiting (fst (drive t [] w))) eqn:Haw.
  - right. exists p, (fst (drive t [] w)), []. repeat split; auto.
  - left. split; [exact Hp|]. exact (drive_awaiting_or_done t [] w Haw Hd).
Qed.

Lemma OneBusy_after_quiet (t : Async unit) (w w0 : World)
      (p : list (Async unit)) :
  Quiet t ->
  state w = state w0 -> loaded w = loaded w0 ->
  OneBusy (mkConfig w0 p) ->
  OneBusy (mkConfig (snd (drive t [] w)) (park (fst (drive t [] w)) p)).
Proof.
  intros Hq Hs Hl Hc.
  destruct (Quiet_drive t [] w Hq) as [Hq' [Hl' Hi']]. simpl in Hi'.
  unfold OneBusy in *. simpl in *. rewrite Hl', Hi', Hs, Hl.
  destruct Hc as [[Hp Hh] | [p1 [b [p2 [E [H1 [H2 Hb]]]]]]].
  - left. split; [|exact Hh]. apply Forall_park; assumption.
  - right. unfold park. destruct (awaiting (fst (drive t [] w))).
    + exists p1, b, (p2 ++ [fst (drive t [] w)]).
      rewrite E, <- app_assoc. simpl. repeat split; auto.
      apply Forall_app. split; [exact H2|].
      constructor; [exact Hq' | constructor].
    + exists p1, b, p2. repeat split; auto.
Qed.

Lemma OneBusy_holdsOnly (c : Config) :
  OneBusy c -> Forall Quiet (pool c) ->
  holdsOnly (playbackInstance (state (world c))) (loaded (world c)).
Proof.
  intros [[_ H] | [p1 [b [p2 [E [_ [_ Hb]]]]]]] Hall; [exact H|].
  apply (Quiet_Safe_holdsOnly b); [|exact Hb].
  rewrite Forall_forall in Hall. apply Hall. rewrite E.
  apply in_or_app. right. left. reflexivity.
Qed.

Lemma istep_OneBusy (c : Config) (ev : Event) :
  OneBusy c ->
  match ev with
  | Call op =>
      Quiet (script (state (world c)) op) \/
      (Forall Quiet (pool c) /\
       match op with
       | OpStatusUpdate closure _ =>
           playbackInstance closure = playbackInstance (state (world c))
       | _ => True
       end)
  | Settle _ _ => True
  end ->
  OneBusy (istep c ev).
Proof.
  intros Hc Hev. destruct c as [w p]. destruct ev as [op | i r]; simpl in *.
  - destruct Hev as [Hq | [Hall Hcl]].
    + pose proof (OneBusy_after_quiet _ w w p Hq eq_refl eq_refl Hc) as H.
      destruct (drive (script (state w) op) [] w) as [t w']. exact H.
    + pose proof (OneBusy_holdsOnly _ Hc Hall) as Hh. simpl in Hh.
      pose proof (OneBusy_after_safe _ w p Hall
                    (script_Safe (state w) op _ Hh Hcl)) as H.
      destruct (drive (script (state w) op) [] w) as [t w']. exact H.
  - destruct (nth_error p i) as [t0|] eqn:Hi; [|exact Hc].
    assert (Hquiet : Quiet t0 -> OneBusy (mkConfig w (removeAt i p)) ->
                     OneBusy
                       (let '(t1, w1) := settle t0 r w in
                        let '(t, w') := drive t1 [] w1 in
                        mkConfig w' (park t (removeAt i p)))).
    { intros Hq Hrest. destruct (Quiet_settle t0 r w Hq) as [Hq1 [Hl1 Hs1]].
      pose proof (OneBusy_after_quiet _ _ w _ Hq1 Hs1 Hl1 Hrest) as H.
      destruct (settle t0 r w) as [t1 w1]. simpl in *.
      destruct (drive t1 [] w1) as [t w']. exact H. }
    destruct Hc as [[Hp Hh] | [p1 [b [p2 [E [H1 [H2 Hb]]]]]]]; simpl in *.
    + apply Hquiet.
      * rewrite Forall_forall in Hp. exact (Hp _ (nth_error_In _ _ Hi)).
      * left. split; [apply Forall_removeAt, Hp | exact Hh].
    + subst p.
      destruct (nth_error_around p1 b p2 i t0 Hi)
        as [[Hin [p1' [E Hsub]]] | [[-> E] | [Hin [p2' [E Hsub]]]]].
      * apply Hquiet.
        -- rewrite Forall_forall in H1. exact (H1 _ Hin).
        -- right. exists p1', b, p2. simpl. repeat split; auto.
           exact (Forall_sub _ _ _ Hsub H1).
      * rewrite E. pose proof (settle_Safe b r w Hb) as Hs.
        destruct (settle b r w) as [t1 w1]. simpl in Hs.
        pose proof (OneBusy_after_safe t1 w1 (p1 ++ p2)) as H.
        destruct (drive t1 [] w1) as [t w']. apply H; [|exact Hs].
        apply Forall_app. split; assumption.
      * apply Hquiet.
        -- rewrite Forall_forall in H2. exact (H2 _ Hin).
        -- right. exists p1, b, p2'. simpl. repeat split; auto.
           exact (Forall_sub _ _ _ Hsub H2).
Qed.

Lemma OneBusy_atMostOne (c : Config) :
  OneBusy c -> (List.length (loaded (world c)) <= 1)%nat.
Proof.
  intros [[_ H] | [p1 [b [p2 [_ [_ [_ Hb]]]]]]].
  - exact (holdsOnly_atMostOne _ _ H).
  - exact (Safe_atMostOne _ _ _ Hb).
Qed.

Lemma OneBusy_along_run :
  forall evs c, OneBusy c -> HandleCallsApart c evs -> OneBusy (irun c evs).
Proof.
  induction evs as [|ev evs IH]; intros c Hc Hrun; [exact Hc|].
  change (irun c (ev :: evs)) with (irun (istep c ev) evs).
  destruct Hrun as [Hev Hrun].
  apply IH; [|exact Hrun]. apply istep_OneBusy; assumption.
Qed.

Lemma sameHandle_eq (a b : option Sound) : sameHandle a b = true -> a = b.
Proof.
  destruct a as [x|], b as [y|]; simpl; try discriminate; try reflexivity.
  intros H. apply Nat.eqb_eq in H. congruence.
Qed.

(** The callback registered by the effect was created while the state held
    the handle it holds now. *)
Lemma registered_holds_current_handle :
  forall evs c registered,
    (forall closure, registered = Some closure ->
       playbackInstance closure = playbackInstance (state (world c))) ->
    forall closure,
      registeredAfter c registered evs = Some closure ->
      playbackInstance closure
      = playbackInstance (state (world (irun c evs))).
Proof.
  induction evs as [|ev evs IH]; intros c registered Hreg closure H;
    [exact (Hreg _ H)|].
  change (irun c (ev :: evs)) with (irun (istep c ev) evs).
  simpl in H. revert H. apply IH. intros cl. unfold resubscribe.
  destruct (sameHandle _ _) eqn:E.
  - intros H. rewrite (Hreg _ H). exact (sameHandle_eq _ _ E).
  - destruct (playbackInstance (state (world (istep c ev)))) eqn:Ei;
      [|discriminate].
    intros H. injection H as <-. exact Ei.
Qed.

(** When every report of a run is handled by the callback the effect
    registered, the condition on callbacks holds by itself. *)
Lemma delivered_calls_are_apart :
  forall evs c registered,
    (forall closure, registered = Some closure ->
       playbackInstance closure = playbackInstance (state (world c))) ->
    Delivered c registered evs ->
    KeptApart c evs ->
    HandleCallsApart c evs.
Proof.
  induction evs as [|ev evs IH]; intros c registered Hreg Hd Hk;
    [exact I|].
  destruct Hd as [Hd Hds]. destruct Hk as [Hk Hks]. split.
  - destruct ev as [op|i r]; [|exact I].
    destruct Hk as [Hq|Hp]; [left; exact Hq|].
    right. split; [exact Hp|].
    destruct op; try exact I. apply Hreg. exact Hd.
  - apply (IH _ _ (fun closure H =>
                     registered_holds_current_handle [ev] c registered Hreg
                                                     closure H)).
    + exact Hds.
    + exact Hks.
Qed.

(** C7, as the code has it. At most one handle is loaded after every step,
    the awaits inside an operation included, in every run where the calls
    that load, unload or assign the handle ([playSong], next, previous,
    [stopSong], a finished report that advances) are kept apart: none is
    made while another one is parked at an await, and a report that
    advances is handled by a callback created while the state held its
    present handle, as the registered one was
    ([delivered_calls_are_apart]).  Pause, resume, seek,
    [setPlaylist], the poll and the other status reports overlap with
    anything.  [playSong] unloads the handle the state holds before it
    creates the next one, and [stopSong] unloads it and sets the handle to
    null. *)
Theorem at_most_one_handle_when_handle_calls_are_apart :
  forall (evs : list Event),
    HandleCallsApart initialConfig evs ->
    (List.length (loaded (world (irun initialConfig evs))) <= 1)%nat /\
    OneBusy (irun initialConfig evs).
Proof.
  intros evs Hrun.
  assert (H : OneBusy (irun initialConfig evs)).
  { apply OneBusy_along_run; [|exact Hrun].
    left. split; [constructor | left; reflexivity]. }
  split; [exact (OneBusy_atMostOne _ H) | exact H].
Qed.

Lemma at_most_one_handle_when_handle_calls_are_apart_witness :
  (List.length (loaded (world (irun initialConfig overlappingQuietRun))) <= 1)%nat /\
  OneBusy (irun initialConfig overlappingQuietRun).
Proof.
  apply (at_most_one_handle_when_handle_calls_are_apart overlappingQuietRun).
  cbn. repeat split.
  all: first
         [ left; cbn; repeat split; intros;
           try match goal with st : AVPlaybackStatus |- _ => destruct st end;
           cbn; auto; fail
         | right; split; [|exact I]; repeat constructor; intros;
           try match goal with st : AVPlaybackStatus |- _ => destruct st end;
           cbn; auto ].
Defined.

(** C7, as stated, fails: two calls of [playSong] made before either
    [createAsync] resolves both find no handle to unload, and both handles
    end up loaded. *)
Lemma two_handles_loaded_when_plays_overlap :
  loaded (world (irun initialConfig overlappingPlays)) = [0%nat; 1%nat] /\
  ~ (List.length (loaded (world (irun initialConfig overlappingPlays))) <= 1)%nat.
Proof.
  split; [reflexivity|]. simpl. lia.
Qed.

(** ** The two readings agree

    Running a script to completion is the interleaved run in which its
    awaits settle one after the other with nothing else in flight. *)

Lemma exec_is_a_run (t : Async unit) :
  forall oracle us w,
    irun (mkConfig (snd (drive t us w)) (park (fst (drive t us w)) []))
         (map (Settle 0) (answers t oracle us w))
    = mkConfig (snd (exec t oracle us w)) [].
Proof.
  induction t as [a| e | u k IH | msg e k IH | uri kOk IHok kErr IHerr
                 | h m kOk IHok kErr IHerr]; intros oracle us w.
  - reflexivity.
  - reflexivity.
  - apply IH.
  - apply IH.
  - simpl. destruct (oracle 0%nat) as [st|e]; simpl.
    + specialize (IHok (fresh w) (rest oracle) [] (loadFresh (commit us w))).
      destruct (drive (kOk (fresh w)) [] (loadFresh (commit us w))).
      exact IHok.
    + specialize (IHerr e (rest oracle) [] (commit us w)).
      destruct (drive (kErr e) [] (commit us w)). exact IHerr.
  - simpl. destruct (oracle 0%nat) as [st|e]; simpl.
    + specialize (IHok st (rest oracle) [] (settleSound h m (commit us w))).
      destruct (drive (kOk st) [] (settleSound h m (commit us w))).
      exact IHok.
    + specialize (IHerr e (rest oracle) [] (commit us w)).
      destruct (drive (kErr e) [] (commit us w)). exact IHerr.
Qed.

Lemma runOp_is_a_run (op : Operation) (oracle : nat -> Response) (w : World) :
  irun (mkConfig w [])
       (Call op :: map (Settle 0) (answers (script (state w) op) oracle [] w))
  = mkConfig (snd (runOp op oracle w)) [].
Proof.
  unfold runOp. simpl.
  pose proof (exec_is_a_run (script (state w) op) oracle [] w) as H.
  destruct (drive (script (state w) op) [] w). exact H.
Qed.

(** * Further properties of the provider *)

(** ** What [playSong] leaves behind *)

Lemma effective_of_playlist (s : PlayerState) :
  getEffectivePlaylist s
  = match playlist s with [] => masterPlaylist s | _ :: _ => playlist s end.
Proof.
  unfold getEffectivePlaylist. destruct (playlist s); reflexivity.
Qed.

Ltac render_compute :=
  simpl; repeat (progress (unfold render, syncMasterPlaylist; simpl)).

(** [playSong] when every native call resolves. *)
Lemma playSong_resolving (w : World) (song : DownloadedSong)
      (oracle : nat -> Response) :
  (forall k, exists st, oracle k = Resolves st) ->
  exists w',
    runOp (OpPlaySong song) oracle w = (Resolved tt, w') /\
    currentSong (state w') = Some song /\
    isPlaying (state w') = true /\
    playbackInstance (state w') = Some (fresh w) /\
    loaded w'
    = match playbackInstance (state w) with
      | Some h => remove Nat.eq_dec h (loaded w)
      | None => loaded w
      end ++ [fresh w] /\
    position (state w') = position (state w) /\
    duration (state w') = duration (state w) /\
    playlist (state w') = getEffectivePlaylist (state w) /\
    masterPlaylist (state w') = masterPlaylist (state w) /\
    console w' = console w.
Proof.
  intros Hres. destruct (Hres 0%nat) as [st0 H0].
  destruct (Hres 1%nat) as [st1 H1].
  rewrite effective_of_playlist.
  unfold runOp. simpl script. unfold playSong, playSongJS.
  destruct (playbackInstance (state w)) as [h|];
    destruct (playlist (state w)) as [|p ps] eqn:Hp;
    destruct (masterPlaylist (state w)) as [|m ms] eqn:Hm;
    simpl; unfold rest; rewrite ?H0, ?H1; simpl;
    eexists; (split; [reflexivity|]); render_compute;
    rewrite ?Hp, ?Hm; repeat split; reflexivity.
Qed.

(** X1. [playSong], when the engine resolves its calls and holds at most
    the handle of the state: the song becomes the current song, the playing
    flag is set, the state holds the newly created handle and the engine has
    that handle alone loaded.  Position and duration are not reset, the
    active playlist becomes the effective playlist, the master playlist
    stays, and nothing is logged. *)
Theorem playSong_success :
  forall (w : World) (song : DownloadedSong) (oracle : nat -> Response),
    holdsOnly (playbackInstance (state w)) (loaded w) ->
    (forall k, exists st, oracle k = Resolves st) ->
    exists w',
      runOp (OpPlaySong song) oracle w = (Resolved tt, w') /\
      currentSong (state w') = Some song /\
      isPlaying (state w') = true /\
      playbackInstance (state w') = Some (fresh w) /\
      loaded w' = [fresh w] /\
      position (state w') = position (state w) /\
      duration (state w') = duration (state w) /\
      playlist (state w') = getEffectivePlaylist (state w) /\
      masterPlaylist (state w') = masterPlaylist (state w) /\
      console w' = console w.
Proof.
  intros w song oracle Hold Hres.
  destruct (playSong_resolving w song oracle Hres)
    as [w' [Hrun [Hc [Hi [Hh [Hl Hrest]]]]]].
  exists w'. repeat (split; [assumption|]).
  split; [|exact Hrest]. rewrite Hl.
  destruct Hold as [-> | [h [-> ->]]].
  - destruct (playbackInstance (state w)); reflexivity.
  - simpl. destruct (Nat.eq_dec h h); [reflexivity | congruence].
Qed.

Lemma playSong_success_witness :
  exists w',
    runOp (OpPlaySong songC) allResolve playingWorld = (Resolved tt, w') /\
    currentSong (state w') = Some songC /\
    isPlaying (state w') = true /\
    playbackInstance (state w') = Some (fresh playingWorld) /\
    loaded w' = [fresh playingWorld] /\
    position (state w') = position (state playingWorld) /\
    duration (state w') = duration (state playingWorld) /\
    playlist (state w') = getEffectivePlaylist (state playingWorld) /\
    masterPlaylist (state w') = masterPlaylist (state playingWorld) /\
    console w' = console playingWorld.
Proof.
  apply (playSong_success playingWorld songC allResolve).
  - right. exists 0%nat. split; reflexivity.
  - intros k. exists StatusNotLoaded. reflexivity.
Defined.

(** X2. Whatever the engine answers, [playSong] resolves, and it changes the
    playback cells all together or not at all: either the song, the playing
    flag and the new handle are all set and nothing is logged, or the
    current song, the playing flag and the handle are what they were and
    the console has gained exactly one ['Error playing song:'] entry. *)
Theorem playSong_all_or_nothing :
  forall (w : World) (song : DownloadedSong) (oracle : nat -> Response),
    exists w',
      runOp (OpPlaySong song) oracle w = (Resolved tt, w') /\
      ((currentSong (state w') = Some song /\
        isPlaying (state w') = true /\
        playbackInstance (state w') = Some (fresh w) /\
        console w' = console w) \/
       (currentSong (state w') = currentSong (state w) /\
        isPlaying (state w') = isPlaying (state w) /\
        playbackInstance (state w') = playbackInstance (state w) /\
        exists e, console w' = console w ++ [("Error playing song:"%string, e)])).
Proof.
  intros w song oracle.
  unfold runOp. simpl script. unfold playSong, playSongJS.
  destruct (playbackInstance (state w)) as [h|] eqn:Hh;
    destruct (playlist (state w)) as [|p ps] eqn:Hp;
    destruct (masterPlaylist (state w)) as [|m ms] eqn:Hm;
    simpl; unfold rest;
    destruct (oracle 0%nat) as [st0|e0]; simpl;
    try (destruct (oracle 1%nat) as [st1|e1]; simpl);
    eexists; (split; [reflexivity|]); render_compute; rewrite ?Hh;
    first [ left; repeat split; reflexivity
          | right; repeat split; eexists; reflexivity ].
Qed.

(** A [playSong] that resumes after its unload restores the playlist from
    the master playlist of the render it was called in: when a playlist was
    set while it awaited, both the active and the master playlist go back
    to the earlier one. *)
Lemma resumed_playSong_restores_from_its_own_render :
  masterPlaylist (state (world (irun initialConfig playlistSetDuringUnload)))
  = [songC; songA] /\
  playlist (state (world (irun initialConfig playlistSetDuringUnload)))
  = [songC; songA] /\
  masterPlaylist
    (state (world (irun initialConfig
                        (playlistSetDuringUnload
                         ++ [Settle 0 (Resolves StatusNotLoaded)]))))
  = [songA; songB; songC] /\
  playlist
    (state (world (irun initialConfig
                        (playlistSetDuringUnload
                         ++ [Settle 0 (Resolves StatusNotLoaded)]))))
  = [songA; songB; songC].
Proof.
  repeat split; reflexivity.
Qed.

(** X3. A [playSong] call that runs to completion while no other call is in
    flight, unless the unload of the previous handle rejects, ends with the
    effective playlist of the state it was called in as the active
    playlist, whether or not [createAsync] then succeeds: a cleared playlist
    is restored from the master playlist even by a call that fails to load
    the song.  The master playlist is then what it was when the call was
    made.  (With another call in between, see
    [resumed_playSong_restores_from_its_own_render].) *)
Theorem playSong_restores_playlist :
  forall (w : World) (song : DownloadedSong) (oracle : nat -> Response),
    playbackInstance (state w) = None \/
    (exists st, oracle 0%nat = Resolves st) ->
    playlist (state (snd (runOp (OpPlaySong song) oracle w)))
    = getEffectivePlaylist (state w) /\
    masterPlaylist (state (snd (runOp (OpPlaySong song) oracle w)))
    = masterPlaylist (state w).
Proof.
  intros w song oracle H. rewrite effective_of_playlist.
  unfold runOp. simpl script. unfold playSong, playSongJS.
  destruct (playbackInstance (state w)) as [h|] eqn:Hh.
  - destruct H as [H | [st H]]; [discriminate H|].
    destruct (playlist (state w)) as [|p ps] eqn:Hp;
      destruct (masterPlaylist (state w)) as [|m ms] eqn:Hm;
      simpl; rewrite H; simpl; unfold rest;
      destruct (oracle 1%nat); render_compute; rewrite ?Hp, ?Hm;
      split; reflexivity.
  - destruct (playlist (state w)) as [|p ps] eqn:Hp;
      destruct (masterPlaylist (state w)) as [|m ms] eqn:Hm;
      simpl; destruct (oracle 0%nat); render_compute; rewrite ?Hp, ?Hm;
      split; reflexivity.
Qed.

Lemma playSong_restores_playlist_witness :
  playlist (state (snd (runOp (OpPlaySong songA) allReject clearedWorld)))
  = getEffectivePlaylist (state clearedWorld) /\
  masterPlaylist (state (snd (runOp (OpPlaySong songA) allReject clearedWorld)))
  = masterPlaylist (state clearedWorld).
Proof.
  apply (playSong_restores_playlist clearedWorld songA allReject).
  left. reflexivity.
Defined.

(** X4. When the previous handle is unloaded and [createAsync] then rejects,
    the state keeps the current song, the playing flag and the old handle,
    although the engine has nothing loaded any more. *)
Theorem playSong_failed_create_leaves_stale_handle :
  forall (w : World) (song : DownloadedSong) (oracle : nat -> Response)
         (h : Sound) (st : AVPlaybackStatus) (e : Error),
    playbackInstance (state w) = Some h ->
    holdsOnly (playbackInstance (state w)) (loaded w) ->
    oracle 0%nat = Resolves st ->
    oracle 1%nat = Rejects e ->
    exists w',
      runOp (OpPlaySong song) oracle w = (Resolved tt, w') /\
      loaded w' = [] /\
      playbackInstance (state w') = Some h /\
      currentSong (state w') = currentSong (state w) /\
      isPlaying (state w') = isPlaying (state w) /\
      console w' = console w ++ [("Error playing song:"%string, e)].
Proof.
  intros w song oracle h st e Hh Hold H0 H1.
  assert (Hld : remove Nat.eq_dec h (loaded w) = []).
  { rewrite Hh in Hold. destruct Hold as [-> | [h' [-> Heq]]]; [reflexivity|].
    injection Heq as ->. simpl.
    destruct (Nat.eq_dec h' h'); [reflexivity | congruence]. }
  unfold runOp. simpl script. unfold playSong, playSongJS. rewrite Hh.
  destruct (playlist (state w)) as [|p ps] eqn:Hp;
    destruct (masterPlaylist (state w)) as [|m ms] eqn:Hm;
    simpl; rewrite H0; simpl; unfold rest; rewrite H1; simpl;
    eexists; (split; [reflexivity|]); render_compute; rewrite ?Hh, ?Hld;
    repeat split; reflexivity.
Qed.

Lemma playSong_failed_create_leaves_stale_handle_witness :
  exists w',
    runOp (OpPlaySong songC) secondRejects playingWorld = (Resolved tt, w') /\
    loaded w' = [] /\
    playbackInstance (state w') = Some 0%nat /\
    currentSong (state w') = currentSong (state playingWorld) /\
    isPlaying (state w') = isPlaying (state playingWorld) /\
    console w' = console playingWorld
                 ++ [("Error playing song:"%string, nativeError)].
Proof.
  apply (playSong_failed_create_leaves_stale_handle
           playingWorld songC secondRejects 0%nat StatusNotLoaded nativeError).
  - reflexivity.
  - right. exists 0%nat. split; reflexivity.
  - reflexivity.
  - reflexivity.
Defined.

(** ** What pause, resume, seek and the poll leave alone *)

(** X5. [pauseSong], [resumeSong] and [seekTo] only talk to the engine:
    whatever it answers, none of the seven state cells changes (the playing
    flag and the position included, which follow the engine's reports) and
    no handle is loaded or released. *)
Theorem pause_resume_seek_keep_state :
  forall (oracle : nat -> Response) (w : World) (p : Z),
    state (snd (runOp OpPauseSong oracle w)) = state w /\
    loaded (snd (runOp OpPauseSong oracle w)) = loaded w /\
    state (snd (runOp OpResumeSong oracle w)) = state w /\
    loaded (snd (runOp OpResumeSong oracle w)) = loaded w /\
    state (snd (runOp (OpSeekTo p) oracle w)) = state w /\
    loaded (snd (runOp (OpSeekTo p) oracle w)) = loaded w.
Proof.
  intros oracle w p. unfold runOp. simpl script.
  unfold pauseSong, resumeSong, seekTo.
  destruct (playbackInstance (state w)) as [h|]; simpl;
    [destruct (oracle 0%nat); simpl|]; repeat split; reflexivity.
Qed.

(** X6. The polling timer writes the position and nothing else: whatever
    the engine answers, the current song, the playing flag, the handle, the
    duration and both playlists are unchanged, no handle is loaded or
    released, and nothing is logged. *)
Theorem poll_writes_position_only :
  forall (oracle : nat -> Response) (w : World),
    currentSong (state (snd (runOp OpTick oracle w))) = currentSong (state w) /\
    isPlaying (state (snd (runOp OpTick oracle w))) = isPlaying (state w) /\
    playbackInstance (state (snd (runOp OpTick oracle w)))
    = playbackInstance (state w) /\
    duration (state (snd (runOp OpTick oracle w))) = duration (state w) /\
    playlist (state (snd (runOp OpTick oracle w))) = playlist (state w) /\
    masterPlaylist (state (snd (runOp OpTick oracle w)))
    = masterPlaylist (state w) /\
    loaded (snd (runOp OpTick oracle w)) = loaded w /\
    console (snd (runOp OpTick oracle w)) = console w.
Proof.
  intros oracle w. unfold runOp. simpl script. unfold pollPosition.
  destruct (isPlaying (state w)) eqn:Hp;
    [|render_compute; rewrite ?Hp; repeat split; reflexivity].
  destruct (playbackInstance (state w)) as [h|] eqn:Hh;
    [|render_compute; rewrite ?Hp, ?Hh; repeat split; reflexivity].
  simpl. destruct (oracle 0%nat) as [[|pl d pos fin]|e]; render_compute;
    rewrite ?Hp, ?Hh; repeat split; reflexivity.
Qed.

(** X7. With no handle in the state, [pauseSong], [resumeSong], [seekTo] and
    the poll make no native call and change nothing, and [stopSong] resolves
    without touching the engine. *)
Theorem nothing_to_control_without_handle :
  forall (oracle : nat -> Response) (w : World) (p : Z),
    playbackInstance (state w) = None ->
    runOp OpPauseSong oracle w = (Resolved tt, w) /\
    runOp OpResumeSong oracle w = (Resolved tt, w) /\
    runOp (OpSeekTo p) oracle w = (Resolved tt, w) /\
    runOp OpTick oracle w = (Resolved tt, w) /\
    fst (runOp OpStopSong oracle w) = Resolved tt /\
    loaded (snd (runOp OpStopSong oracle w)) = loaded w /\
    answers (script (state w) OpStopSong) oracle [] w = [].
Proof.
  intros oracle w p Hh. unfold runOp. simpl script.
  unfold pauseSong, resumeSong, seekTo, pollPosition, stopSong. rewrite Hh.
  simpl. rewrite commit_nil.
  destruct (isPlaying (state w)); simpl; rewrite ?commit_nil;
    repeat split; reflexivity.
Qed.

Lemma nothing_to_control_without_handle_witness :
  runOp OpPauseSong allReject initialWorld = (Resolved tt, initialWorld) /\
  runOp OpResumeSong allReject initialWorld = (Resolved tt, initialWorld) /\
  runOp (OpSeekTo 1000) allReject initialWorld = (Resolved tt, initialWorld) /\
  runOp OpTick allReject initialWorld = (Resolved tt, initialWorld) /\
  fst (runOp OpStopSong allReject initialWorld) = Resolved tt /\
  loaded (snd (runOp OpStopSong allReject initialWorld)) = loaded initialWorld /\
  answers (script (state initialWorld) OpStopSong) allReject [] initialWorld
  = [].
Proof.
  apply (nothing_to_control_without_handle allReject initialWorld 1000).
  reflexivity.
Defined.

(** ** Which operations can reject *)

(** A [try] whose handler resolves always resolves. *)
Lemma tryCatch_resolves (m : Async unit) (handler : Error -> Async unit) :
  (forall e oracle us w, fst (exec (handler e) oracle us w) = Resolved tt) ->
  forall oracle us w, fst (exec (tryCatch m handler) oracle us w) = Resolved tt.
Proof.
  intros Hh.
  induction m as [[]| e | u k IH | msg e k IH | uri kOk IHok kErr IHerr
                 | h meth kOk IHok kErr IHerr]; intros oracle us w; simpl.
  - reflexivity.
  - apply Hh.
  - apply IH.
  - apply IH.
  - destruct (oracle 0%nat); [apply IHok | apply IHerr].
  - destruct (oracle 0%nat); [apply IHok | apply IHerr].
Qed.

Lemma playSongJS_resolves s song oracle us w :
  fst (exec (playSongJS s song) oracle us w) = Resolved tt.
Proof.
  unfold playSongJS. apply tryCatch_resolves. intros; reflexivity.
Qed.

Lemma navigation_resolves s oracle us w :
  fst (exec (playNextSong s) oracle us w) = Resolved tt /\
  fst (exec (playPreviousSong s) oracle us w) = Resolved tt.
Proof.
  unfold playNextSong, playPreviousSong.
  destruct (len (getEffectivePlaylist s) =? 0); [split; reflexivity|].
  destruct (getCurrentSongIndex s =? -1); [split; reflexivity|].
  rewrite !exec_then_return. split; apply playSongJS_resolves.
Qed.

(** X8. [playSong], [pauseSong], [resumeSong], [playNextSong],
    [playPreviousSong], the context's [setPlaylist] and the status callback
    never reject, whatever the engine answers. *)
Theorem guarded_operations_never_reject :
  forall (oracle : nat -> Response) (w : World) (song : DownloadedSong)
         (songs : list DownloadedSong) (closure : PlayerState)
         (status : AVPlaybackStatus),
    fst (runOp (OpPlaySong song) oracle w) = Resolved tt /\
    fst (runOp OpPauseSong oracle w) = Resolved tt /\
    fst (runOp OpResumeSong oracle w) = Resolved tt /\
    fst (runOp OpPlayNextSong oracle w) = Resolved tt /\
    fst (runOp OpPlayPreviousSong oracle w) = Resolved tt /\
    fst (runOp (OpSetPlaylist songs) oracle w) = Resolved tt /\
    fst (runOp (OpStatusUpdate closure status) oracle w) = Resolved tt.
Proof.
  intros oracle w song songs closure status. unfold runOp. simpl script.
  split; [apply playSongJS_resolves|].
  split; [unfold pauseSong; apply tryCatch_resolves; intros; reflexivity|].
  split; [unfold resumeSong; apply tryCatch_resolves; intros; reflexivity|].
  split; [apply navigation_resolves|].
  split; [apply navigation_resolves|].
  split.
  - unfold setPlaylistWithMaster. destruct (0 <? len songs); reflexivity.
  - unfold updatePlaybackStatus. destruct status as [|pl d p fin];
      [reflexivity|].
    destruct fin; [|reflexivity]. simpl.
    unfold detach. apply tryCatch_resolves. intros; reflexivity.
Qed.

(** X9. [stopSong] never logs, and it resets the state or leaves it alone:
    either it resolves with the current song and the handle null, or it
    rejects, which needs a handle in the state, and all seven cells are what
    they were. *)
Theorem stopSong_all_or_nothing :
  forall (oracle : nat -> Response) (w : World),
    console (snd (runOp OpStopSong oracle w)) = console w /\
    ((fst (runOp OpStopSong oracle w) = Resolved tt /\
      currentSong (state (snd (runOp OpStopSong oracle w))) = None /\
      playbackInstance (state (snd (runOp OpStopSong oracle w))) = None) \/
     (exists e, fst (runOp OpStopSong oracle w) = Rejected e /\
                state (snd (runOp OpStopSong oracle w)) = state w /\
                playbackInstance (state w) <> None)).
Proof.
  intros oracle w. unfold runOp. simpl script. unfold stopSong.
  destruct (playbackInstance (state w)) as [h|] eqn:Hh; simpl.
  - destruct (oracle 0%nat) as [st0|e0]; simpl.
    + unfold rest. destruct (oracle 1%nat) as [st1|e1]; simpl.
      * split; [reflexivity|]. left. repeat split; reflexivity.
      * split; [reflexivity|]. right. exists e1.
        repeat split; try reflexivity. discriminate.
    + split; [reflexivity|]. right. exists e0.
      repeat split; try reflexivity. discriminate.
  - split; [reflexivity|]. left. render_compute. rewrite Hh.
    repeat split; reflexivity.
Qed.

(** ** Where next and previous can lead *)

Lemma findIndexFrom_spec (cur : DownloadedSong) :
  forall l k,
    findIndexFrom (sameId cur) l k = -1 \/
    exists i, findIndexFrom (sameId cur) l k = k + Z.of_nat i /\
              occursFirstAt cur l i.
Proof.
  induction l as [|x l IH]; intros k; simpl; [left; reflexivity|].
  destruct (sameId cur x) eqn:Hx.
  - right. exists 0%nat. split; [lia|]. split.
    + exists x. split; [reflexivity | apply sameId_true, Hx].
    + intros j y Hj. lia.
  - destruct (IH (k + 1)) as [H | [i [H Hocc]]]; [left; exact H|].
    right. exists (S i). split; [lia|].
    destruct Hocc as [[y [Hy Hid]] Hfirst]. split.
    + exists y. split; assumption.
    + intros [|j] z Hj Hz.
      * injection Hz as <-. apply sameId_false, Hx.
      * apply (Hfirst j z); [lia | exact Hz].
Qed.

Lemma findIndex_range (cur : DownloadedSong) (l : list DownloadedSong) :
  findIndex (sameId cur) l = -1 \/ 0 <= findIndex (sameId cur) l < len l.
Proof.
  unfold findIndex. destruct (findIndexFrom_spec cur l 0) as [H | [i [H Hocc]]].
  - left; exact H.
  - right. apply occursFirstAt_lt in Hocc. unfold len. lia.
Qed.

Lemma findIndex_present (cur x : DownloadedSong) (l : list DownloadedSong) :
  In x l -> id x = id cur -> findIndex (sameId cur) l <> -1.
Proof.
  intros Hin Hid.
  assert (Hge : forall k, 0 <= k -> findIndexFrom (sameId cur) l k <> -1).
  { induction l as [|y l IH]; intros k Hk; [contradiction|]. simpl.
    destruct (sameId cur y) eqn:Hy; [lia|].
    apply IH; [|lia]. destruct Hin as [-> | Hin]; [|exact Hin].
    apply sameId_true in Hid. congruence. }
  apply (Hge 0). lia.
Qed.

(** The index is [-1] or a non-negative number. *)
Lemma getCurrentSongIndex_range (s : PlayerState) :
  getCurrentSongIndex s = -1 \/ 0 <= getCurrentSongIndex s.
Proof.
  unfold getCurrentSongIndex. destruct (currentSong s) as [cur|]; [|auto].
  pose proof (findIndex_range cur (playlist s)) as Hp.
  pose proof (findIndex_range cur (masterPlaylist s)) as Hm.
  destruct (0 <? len (playlist s)), (0 <? len (masterPlaylist s));
    try destruct (findIndex (sameId cur) (playlist s) =? -1) eqn:E;
    simpl; try apply Z.eqb_neq in E; lia.
Qed.

Lemma elementAt_In {A : Type} (l : list A) (k : Z) (x : A) :
  elementAt l k = Some x -> In x l.
Proof.
  unfold elementAt. destruct (k <? 0); [discriminate|]. apply nth_error_In.
Qed.

(** X10. [playNextSong] and [playPreviousSong] return at once or call
    [playSong] on a song of the effective playlist: the index they compute
    always lies inside that playlist, so [playSong] is never handed
    [undefined], whichever list the current song was found in. *)
Theorem navigation_targets_a_playlist_song :
  forall (s : PlayerState),
    (playNextSong s = Ret tt \/
     exists song, In song (getEffectivePlaylist s) /\
                  playNextSong s = (playSong s song ;; Ret tt)) /\
    (playPreviousSong s = Ret tt \/
     exists song, In song (getEffectivePlaylist s) /\
                  playPreviousSong s = (playSong s song ;; Ret tt)).
Proof.
  intros s. unfold playNextSong, playPreviousSong, playSong.
  destruct (len (getEffectivePlaylist s) =? 0) eqn:En; [split; left; reflexivity|].
  destruct (getCurrentSongIndex s =? -1) eqn:Ei; [split; left; reflexivity|].
  apply Z.eqb_neq in En, Ei.
  assert (Hn : 0 < len (getEffectivePlaylist s)) by (unfold len in *; lia).
  destruct (getCurrentSongIndex_range s) as [H | Hi]; [contradiction|].
  split; right.
  - destruct (elementAt_in_range (getEffectivePlaylist s)
                (Z.rem (getCurrentSongIndex s + 1) (len (getEffectivePlaylist s))))
      as [x [Hx _]].
    { rewrite Z.rem_mod_nonneg by lia. apply Z.mod_pos_bound; lia. }
    exists x. rewrite Hx. split; [exact (elementAt_In _ _ _ Hx) | reflexivity].
  - destruct (elementAt_in_range (getEffectivePlaylist s)
                (Z.rem (getCurrentSongIndex s - 1 + len (getEffectivePlaylist s))
                       (len (getEffectivePlaylist s))))
      as [x [Hx _]].
    { rewrite Z.rem_mod_nonneg by lia. apply Z.mod_pos_bound; lia. }
    exists x. rewrite Hx. split; [exact (elementAt_In _ _ _ Hx) | reflexivity].
Qed.

Lemma playSongJS_is_a_call (s : PlayerState) (song : option DownloadedSong) :
  (playSongJS s song ;; Ret tt) <> Ret tt.
Proof.
  unfold playSongJS.
  destruct (playbackInstance s);
    destruct ((len (playlist s) =? 0) && (0 <? len (masterPlaylist s)));
    destruct song; simpl; discriminate.
Qed.

Lemma getCurrentSongIndex_resolved (s : PlayerState) cur x :
  currentSong s = Some cur ->
  In x (playlist s) \/ In x (masterPlaylist s) ->
  id x = id cur ->
  len (getEffectivePlaylist s) <> 0 /\ getCurrentSongIndex s <> -1.
Proof.
  intros Hcur Hin Hid. unfold getEffectivePlaylist, getCurrentSongIndex.
  rewrite Hcur.
  assert (Hne : forall l : list DownloadedSong, In x l -> (0 <? len l) = true).
  { intros [|y l] H; [contradiction | reflexivity]. }
  destruct (0 <? len (playlist s)) eqn:Ep.
  - apply Z.ltb_lt in Ep. split; [lia|].
    destruct (findIndex (sameId cur) (playlist s) =? -1) eqn:E; simpl.
    + apply Z.eqb_eq in E. destruct Hin as [Hin | Hin].
      * exfalso. exact (findIndex_present cur x _ Hin Hid E).
      * rewrite (Hne _ Hin). exact (findIndex_present cur x _ Hin Hid).
    + apply Z.eqb_neq in E. exact E.
  - destruct Hin as [Hin | Hin]; [rewrite (Hne _ Hin) in Ep; discriminate|].
    pose proof (Hne _ Hin) as Em. rewrite Em. apply Z.ltb_lt in Em.
    split; [lia|]. exact (findIndex_present cur x _ Hin Hid).
Qed.

(** X11. [playNextSong] and [playPreviousSong] return without calling
    [playSong] exactly when there is no current song or no song of either
    playlist carries its identifier; in every other state they call
    [playSong]. *)
Theorem navigation_is_noop_exactly_when_unresolved :
  forall (s : PlayerState),
    (playNextSong s = Ret tt <-> currentSongUnresolved s) /\
    (playPreviousSong s = Ret tt <-> currentSongUnresolved s).
Proof.
  intros s.
  assert (Hback : currentSongUnresolved s ->
                  playNextSong s = Ret tt /\ playPreviousSong s = Ret tt).
  { intros H. apply navigation_returns_early. right.
    apply getCurrentSongIndex_unresolved. exact H. }
  assert (Hforth : playNextSong s = Ret tt \/ playPreviousSong s = Ret tt ->
                   currentSongUnresolved s).
  { intros Hnoop. unfold currentSongUnresolved.
    destruct (currentSong s) as [cur|] eqn:Hcur; [|left; reflexivity].
    right. exists cur. split; [reflexivity|]. intros x Hin Hid.
    destruct (getCurrentSongIndex_resolved s cur x Hcur Hin Hid) as [Hn Hi].
    apply Z.eqb_neq in Hn, Hi.
    unfold playNextSong, playPreviousSong in Hnoop. rewrite Hn, Hi in Hnoop.
    destruct Hnoop as [H | H]; exact (playSongJS_is_a_call _ _ H). }
  split; split; intros H; try (apply Hback; exact H); apply Hforth; auto.
Qed.

(** ** Next and previous undo each other *)

Lemma wrap_around_inverse (i n : Z) :
  0 <= i < n ->
  ((i + 1) mod n - 1 + n) mod n = i /\ ((i - 1 + n) mod n + 1) mod n = i.
Proof.
  intros Hi. split.
  - destruct (Z.eq_dec (i + 1) n) as [E | E].
    + rewrite E, Z_mod_same_full. replace (0 - 1 + n) with i by lia.
      apply Z.mod_small. lia.
    + rewrite (Z.mod_small (i + 1) n) by lia.
      replace (i + 1 - 1 + n) with (i + 1 * n) by lia.
      rewrite Z.mod_add by lia. apply Z.mod_small. lia.
  - destruct (Z.eq_dec i 0) as [E | E].
    + subst i. rewrite (Z.mod_small (0 - 1 + n) n) by lia.
      replace (0 - 1 + n + 1) with n by lia. apply Z_mod_same_full.
    + replace (i - 1 + n) with (i - 1 + 1 * n) by lia.
      rewrite Z.mod_add by lia. rewrite (Z.mod_small (i - 1) n) by lia.
      replace (i - 1 + 1) with i by lia. apply Z.mod_small. lia.
Qed.

(** Next and previous, when the engine resolves its calls: the song they
    lead to becomes the current song and the effective playlist stays. *)
Lemma navigation_resolving (w : World) cur i (oracle : nat -> Response) :
  currentSong (state w) = Some cur ->
  occursFirstAt cur (getEffectivePlaylist (state w)) i ->
  (forall k, exists st, oracle k = Resolves st) ->
  exists next prev,
    nth_error (getEffectivePlaylist (state w))
      (Z.to_nat ((Z.of_nat i + 1) mod len (getEffectivePlaylist (state w))))
    = Some next /\
    nth_error (getEffectivePlaylist (state w))
      (Z.to_nat ((Z.of_nat i - 1 + len (getEffectivePlaylist (state w)))
                 mod len (getEffectivePlaylist (state w))))
    = Some prev /\
    currentSong (state (snd (runOp OpPlayNextSong oracle w))) = Some next /\
    getEffectivePlaylist (state (snd (runOp OpPlayNextSong oracle w)))
    = getEffectivePlaylist (state w) /\
    currentSong (state (snd (runOp OpPlayPreviousSong oracle w))) = Some prev /\
    getEffectivePlaylist (state (snd (runOp OpPlayPreviousSong oracle w)))
    = getEffectivePlaylist (state w).
Proof.
  intros Hcur Hocc Hres.
  destruct (navigation_from_index (state w) cur i Hcur Hocc)
    as [next [prev [Hnext [Hprev [Hn Hp]]]]].
  exists next, prev. split; [exact Hnext|]. split; [exact Hprev|].
  assert (Heff : forall w',
             playlist (state w') = getEffectivePlaylist (state w) ->
             getEffectivePlaylist (state w') = getEffectivePlaylist (state w)).
  { intros w' Hpl. unfold getEffectivePlaylist at 1. rewrite Hpl.
    apply occursFirstAt_lt in Hocc.
    destruct (getEffectivePlaylist (state w)); [simpl in Hocc; lia|].
    reflexivity. }
  unfold runOp. simpl script. rewrite Hn, Hp, !exec_then_return.
  destruct (playSong_resolving w next oracle Hres)
    as [w1 [Hrun1 [Hc1 [_ [_ [_ [_ [_ [Hpl1 _]]]]]]]]].
  destruct (playSong_resolving w prev oracle Hres)
    as [w2 [Hrun2 [Hc2 [_ [_ [_ [_ [_ [Hpl2 _]]]]]]]]].
  unfold runOp in Hrun1, Hrun2. simpl script in Hrun1, Hrun2.
  rewrite Hrun1, Hrun2. simpl. auto.
Qed.

(** X12. In a playlist whose identifiers do not repeat, when the engine
    resolves its calls, [playNextSong] followed by [playPreviousSong], and
    [playPreviousSong] followed by [playNextSong], end on the playlist's
    entry for the song that was current. *)
Theorem next_and_previous_undo_each_other :
  forall (w : World) (cur x : DownloadedSong) (i : nat)
         (oracle1 oracle2 : nat -> Response),
    currentSong (state w) = Some cur ->
    NoDup (map id (getEffectivePlaylist (state w))) ->
    nth_error (getEffectivePlaylist (state w)) i = Some x ->
    id x = id cur ->
    (forall k, exists st, oracle1 k = Resolves st) ->
    (forall k, exists st, oracle2 k = Resolves st) ->
    currentSong
      (state (snd (runOp OpPlayPreviousSong oracle2
                         (snd (runOp OpPlayNextSong oracle1 w)))))
    = Some x /\
    currentSong
      (state (snd (runOp OpPlayNextSong oracle2
                         (snd (runOp OpPlayPreviousSong oracle1 w)))))
    = Some x.
Proof.
  intros w cur x i oracle1 oracle2 Hcur Hnd Hx Hid Hres1 Hres2.
  pose proof (occursFirstAt_of_distinct_ids cur _ i x Hnd Hx Hid) as Hocc.
  pose proof (occursFirstAt_lt _ _ _ Hocc) as Hlt.
  set (eff := getEffectivePlaylist (state w)) in *.
  assert (Hi : 0 <= Z.of_nat i < len eff) by (unfold len; lia).
  destruct (wrap_around_inverse _ _ Hi) as [Hnp Hpn].
  destruct (navigation_resolving w cur i oracle1 Hcur Hocc Hres1)
    as [next [prev [Hnext [Hprev [Hc1 [He1 [Hc2 He2]]]]]]].
  fold eff in Hnext, Hprev, He1, He2.
  split.
  - set (w1 := snd (runOp OpPlayNextSong oracle1 w)) in *.
    assert (Hocc1 : occursFirstAt next (getEffectivePlaylist (state w1))
                      (Z.to_nat ((Z.of_nat i + 1) mod len eff))).
    { rewrite He1. apply (occursFirstAt_of_distinct_ids _ _ _ next Hnd Hnext).
      reflexivity. }
    destruct (navigation_resolving w1 next _ oracle2 Hc1 Hocc1 Hres2)
      as [_ [back [_ [Hback [_ [_ [Hc _]]]]]]].
    rewrite Hc, <- Hback, He1.
    rewrite Z2Nat.id by (apply Z.mod_pos_bound; lia).
    rewrite Hnp, Nat2Z.id. exact Hx.
  - set (w2 := snd (runOp OpPlayPreviousSong oracle1 w)) in *.
    assert (Hocc2 : occursFirstAt prev (getEffectivePlaylist (state w2))
                      (Z.to_nat ((Z.of_nat i - 1 + len eff) mod len eff))).
    { rewrite He2. apply (occursFirstAt_of_distinct_ids _ _ _ prev Hnd Hprev).
      reflexivity. }
    destruct (navigation_resolving w2 prev _ oracle2 Hc2 Hocc2 Hres2)
      as [forth [_ [Hforth [_ [Hc _]]]]].
    rewrite Hc, <- Hforth, He2.
    rewrite Z2Nat.id by (apply Z.mod_pos_bound; lia).
    rewrite Hpn, Nat2Z.id. exact Hx.
Qed.

Lemma next_and_previous_undo_each_other_witness :
  currentSong
    (state (snd (runOp OpPlayPreviousSong allResolve
                       (snd (runOp OpPlayNextSong allResolve playingWorld)))))
  = Some songB /\
  currentSong
    (state (snd (runOp OpPlayNextSong allResolve
                       (snd (runOp OpPlayPreviousSong allResolve playingWorld)))))
  = Some songB.
Proof.
  apply (next_and_previous_undo_each_other
           playingWorld songB songB 1%nat allResolve allResolve).
  - reflexivity.
  - simpl. repeat constructor; simpl; intuition discriminate.
  - reflexivity.
  - reflexivity.
  - intros k. exists StatusNotLoaded. reflexivity.
  - intros k. exists StatusNotLoaded. reflexivity.
Defined.

(** ** Invariants of runs with calls in flight *)

(** The case analysis every script admits, with [leaf] for the segments. *)
Ltac emits_by leaf s op :=
  destruct op as [song| | | p | | | | | songs | closure status | ]; simpl script;
  [ unfold playSong, playSongJS;
    destruct (playbackInstance s); destruct (len (playlist s) =? 0);
    destruct (0 <? len (masterPlaylist s)) eqn:?; walk; leaf
  | unfold pauseSong; destruct (playbackInstance s); walk; leaf
  | unfold resumeSong; destruct (playbackInstance s); walk; leaf
  | unfold seekTo; destruct (playbackInstance s); walk; leaf
  | unfold playNextSong;
    destruct (len (getEffectivePlaylist s) =? 0); [walk; leaf|];
    destruct (getCurrentSongIndex s =? -1); [walk; leaf|];
    unfold playSongJS;
    destruct (elementAt _ _); destruct (playbackInstance s);
    destruct (len (playlist s) =? 0);
    destruct (0 <? len (masterPlaylist s)) eqn:?; walk; leaf
  | unfold playPreviousSong;
    destruct (len (getEffectivePlaylist s) =? 0); [walk; leaf|];
    destruct (getCurrentSongIndex s =? -1); [walk; leaf|];
    unfold playSongJS;
    destruct (elementAt _ _); destruct (playbackInstance s);
    destruct (len (playlist s) =? 0);
    destruct (0 <? len (masterPlaylist s)) eqn:?; walk; leaf
  | unfold stopSong; destruct (playbackInstance s); walk; leaf
  | unfold stopSongAndClear, stopSong;
    destruct (playbackInstance s); walk; leaf
  | unfold setPlaylistWithMaster;
    destruct (0 <? len songs) eqn:?; walk; leaf
  | unfold updatePlaybackStatus; destruct status as [|pl d p fin];
    [walk; leaf|];
    destruct fin; [|walk; leaf];
    unfold detach, playNextSong;
    destruct (len (getEffectivePlaylist closure) =? 0); [walk; leaf|];
    destruct (getCurrentSongIndex closure =? -1); [walk; leaf|];
    unfold playSongJS;
    destruct (elementAt _ _); destruct (playbackInstance closure);
    destruct (len (playlist closure) =? 0);
    destruct (0 <? len (masterPlaylist closure)) eqn:?; walk; leaf
  | unfold pollPosition; destruct (isPlaying s); [|walk; leaf];
    destruct (playbackInstance s); walk; try leaf;
    match goal with st : AVPlaybackStatus |- _ => destruct st end;
    walk; leaf ].

Ltac sync_leaf :=
  simpl; unfold SyncStep, playlistInSync; intros;
  repeat match goal with
         | H : (0 <? len ?l) = false |- _ =>
             apply len_zero_iff in H; try subst l
         end;
  unfold render, syncMasterPlaylist; simpl;
  repeat match goal with
         | H : (0 <? _) = true |- _ => rewrite H
         end;
  simpl; auto.

Lemma script_SyncStep (s : PlayerState) (op : Operation) :
  Emits SyncStep (script s op) None [].
Proof. emits_by sync_leaf s op. Qed.

Lemma sync_along_run :
  forall evs c,
    Forall (Parked SyncStep) (pool c) ->
    playlistInSync (state (world c)) ->
    playlistInSync (state (world (irun c evs))).
Proof.
  induction evs as [|ev evs IH]; intros c Hpool Hinv; [exact Hinv|].
  change (irun c (ev :: evs)) with (irun (istep c ev) evs).
  destruct (istep_Emits SyncStep c ev) as [Hg Hp].
  - intros s Hs. exact Hs.
  - exact Hpool.
  - intros op _. apply script_SyncStep.
  - apply IH; [exact Hp|]. rewrite istep_state. apply Hg. exact Hinv.
Qed.

(** X13. Along every run, whatever calls are in flight, the active playlist
    is empty or equal to the master playlist; so the effective playlist is
    always the master playlist. *)
Theorem effective_playlist_is_master :
  forall (evs : list Event),
    playlistInSync (state (world (irun initialConfig evs))) /\
    getEffectivePlaylist (state (world (irun initialConfig evs)))
    = masterPlaylist (state (world (irun initialConfig evs))).
Proof.
  intros evs.
  assert (H : playlistInSync (state (world (irun initialConfig evs)))).
  { apply sync_along_run; [constructor | left; reflexivity]. }
  split; [exact H|]. unfold getEffectivePlaylist.
  destruct H as [-> | ->]; [reflexivity|].
  destruct (0 <? len _); reflexivity.
Qed.

(** X14. Along every run, the index [getCurrentSongIndex] resolves is [-1]
    or the first position of the current song in the effective playlist:
    the index is never taken from one list and used on the other. *)
Theorem resolved_index_is_in_effective_playlist :
  forall (evs : list Event),
    getCurrentSongIndex (state (world (irun initialConfig evs))) = -1 \/
    exists cur i,
      currentSong (state (world (irun initialConfig evs))) = Some cur /\
      getCurrentSongIndex (state (world (irun initialConfig evs)))
      = Z.of_nat i /\
      occursFirstAt cur
        (getEffectivePlaylist (state (world (irun initialConfig evs)))) i.
Proof.
  intros evs.
  assert (H : playlistInSync (state (world (irun initialConfig evs)))).
  { apply sync_along_run; [constructor | left; reflexivity]. }
  generalize dependent (state (world (irun initialConfig evs))).
  intros s H. unfold getCurrentSongIndex, getEffectivePlaylist.
  destruct (currentSong s) as [cur|]; [|left; reflexivity].
  assert (Hm : (if 0 <? len (masterPlaylist s)
                then findIndex (sameId cur) (masterPlaylist s) else -1) = -1 \/
               exists i, (if 0 <? len (masterPlaylist s)
                          then findIndex (sameId cur) (masterPlaylist s)
                          else -1) = Z.of_nat i /\
                         occursFirstAt cur (masterPlaylist s) i).
  { destruct (0 <? len (masterPlaylist s)); [|left; reflexivity].
    unfold findIndex.
    destruct (findIndexFrom_spec cur (masterPlaylist s) 0) as [E | [i [E Ho]]];
      [left; exact E | right; exists i; split; [lia | exact Ho]]. }
  destruct H as [Hp | Hp]; rewrite Hp.
  - simpl. destruct Hm as [E | [i [E Ho]]]; [left; exact E|].
    right. exists cur, i. auto.
  - destruct (0 <? len (masterPlaylist s)) eqn:El.
    + unfold findIndex in *.
      destruct (findIndexFrom_spec cur (masterPlaylist s) 0) as [E | [i [E Ho]]].
      * rewrite E. simpl. left. reflexivity.
      * rewrite E. replace (0 + Z.of_nat i =? -1) with false
          by (symmetry; apply Z.eqb_neq; lia).
        simpl. right. exists cur, i. auto.
    + destruct Hm as [E | [i [E Ho]]]; [left; exact E|].
      right. exists cur, i. auto.
Qed.

Ltac handle_leaf :=
  simpl; unfold HandleStep, songHasHandle; intros;
  rewrite render_currentSong, render_playbackInstance; simpl;
  first [ assumption | left; reflexivity | right; discriminate ].

Lemma script_HandleStep (s : PlayerState) (op : Operation) :
  Emits HandleStep (script s op) None [].
Proof. emits_by handle_leaf s op. Qed.

(** X15. Along every run, whatever calls are in flight, a current song
    comes with a playback handle in the state: while the mini player has a
    song to show, pause, resume and seek have a handle to act on. *)
Theorem current_song_has_a_handle :
  forall (evs : list Event),
    songHasHandle (state (world (irun initialConfig evs))).
Proof.
  intros evs.
  assert (H : forall evs c,
             Forall (Parked HandleStep) (pool c) ->
             songHasHandle (state (world c)) ->
             songHasHandle (state (world (irun c evs)))).
  { clear evs. induction evs as [|ev evs IH]; intros c Hpool Hinv;
      [exact Hinv|].
    change (irun c (ev :: evs)) with (irun (istep c ev) evs).
    destruct (istep_Emits HandleStep c ev) as [Hg Hp].
    - intros s Hs. exact Hs.
    - exact Hpool.
    - intros op _. apply script_HandleStep.
    - apply IH; [exact Hp|]. rewrite istep_state. apply Hg. exact Hinv. }
  apply H; [constructor | left; reflexivity].
Qed.

(** ** Edges of the auto-advance *)

(** X16. A finished report advances from what its callback captured, not
    from the present state: when the current song of the callback's render
    cannot be resolved in the playlists of that render, the report only
    records the reported status in whatever world it arrives.  No native
    call is made, nothing is logged, and the current song, the handle and
    both playlists of the present state stay, even when the present
    playlists hold the current song. *)
Theorem finished_report_without_successor :
  forall (w : World) (closure : PlayerState) (playing : bool) (d : option Z)
         (p : Z) (oracle : nat -> Response),
    currentSongUnresolved closure ->
    exists w',
      runOp (OpStatusUpdate closure (StatusLoaded playing d p true)) oracle w
      = (Resolved tt, w') /\
      answers (script (state w)
                      (OpStatusUpdate closure (StatusLoaded playing d p true)))
              oracle [] w = [] /\
      isPlaying (state w') = playing /\
      duration (state w') = durationOrZero d /\
      position (state w') = p /\
      currentSong (state w') = currentSong (state w) /\
      playbackInstance (state w') = playbackInstance (state w) /\
      playlist (state w') = playlist (state w) /\
      masterPlaylist (state w') = masterPlaylist (state w) /\
      loaded w' = loaded w /\
      console w' = console w.
Proof.
  intros w closure playing d p oracle H.
  assert (Hn : playNextSong closure = Ret tt).
  { apply navigation_returns_early. right.
    apply getCurrentSongIndex_unresolved. exact H. }
  unfold runOp. simpl script. unfold updatePlaybackStatus. rewrite Hn.
  simpl. eexists. split; [reflexivity|]. repeat split; reflexivity.
Qed.

(** The callback created when [songA] was started without a playlist, in
    the world where [a; b; c] has been set since. *)
Lemma finished_report_without_successor_witness :
  exists w',
    runOp (OpStatusUpdate playingA trackFinished) allReject
          (world (irun initialConfig latePlaylistRun))
    = (Resolved tt, w') /\
    answers (script (state (world (irun initialConfig latePlaylistRun)))
                    (OpStatusUpdate playingA trackFinished))
            allReject [] (world (irun initialConfig latePlaylistRun)) = [] /\
    isPlaying (state w') = false /\
    duration (state w') = durationOrZero (Some 200000) /\
    position (state w') = 200000 /\
    currentSong (state w')
    = currentSong (state (world (irun initialConfig latePlaylistRun))) /\
    playbackInstance (state w')
    = playbackInstance (state (world (irun initialConfig latePlaylistRun))) /\
    playlist (state w')
    = playlist (state (world (irun initialConfig latePlaylistRun))) /\
    masterPlaylist (state w')
    = masterPlaylist (state (world (irun initialConfig latePlaylistRun))) /\
    loaded w' = loaded (world (irun initialConfig latePlaylistRun)) /\
    console w' = console (world (irun initialConfig latePlaylistRun)).
Proof.
  apply (finished_report_without_successor
           (world (irun initialConfig latePlaylistRun)) playingA
           false (Some 200000) 200000 allReject).
  right. exists songA. split; [reflexivity|].
  intros x [[] | []].
Defined.

(** X17. In an effective playlist of one song that is the current song,
    [playNextSong] and [playPreviousSong] both call [playSong] on that
    song: a one-song playlist repeats. *)
Theorem single_song_playlist_repeats :
  forall (s : PlayerState) (cur x : DownloadedSong),
    currentSong s = Some cur ->
    getEffectivePlaylist s = [x] ->
    id x = id cur ->
    playNextSong s = (playSong s x ;; Ret tt) /\
    playPreviousSong s = (playSong s x ;; Ret tt).
Proof.
  intros s cur x Hcur Heff Hid.
  assert (Hocc : occursFirstAt cur (getEffectivePlaylist s) 0).
  { rewrite Heff. split; [exists x; auto|]. intros j y Hj. lia. }
  destruct (navigation_from_index s cur 0 Hcur Hocc)
    as [next [prev [Hnext [Hprev [Hn Hp]]]]].
  rewrite Heff in Hnext, Hprev. simpl in Hnext, Hprev.
  injection Hnext as <-. injection Hprev as <-. split; assumption.
Qed.

Lemma single_song_playlist_repeats_witness :
  playNextSong (mkState (Some songA) true (Some 0%nat) 0 0 [songA] [songA])
  = (playSong (mkState (Some songA) true (Some 0%nat) 0 0 [songA] [songA])
              songA ;; Ret tt) /\
  playPreviousSong (mkState (Some songA) true (Some 0%nat) 0 0 [songA] [songA])
  = (playSong (mkState (Some songA) true (Some 0%nat) 0 0 [songA] [songA])
              songA ;; Ret tt).
Proof.
  apply (single_song_playlist_repeats
           (mkState (Some songA) true (Some 0%nat) 0 0 [songA] [songA])
           songA songA); reflexivity.
Defined.

(** ** The tab shell *)

(** X18. The scene container of the tabs gets the mini player's height as
    bottom padding exactly when the mini player is shown, and no padding
    otherwise. *)
Theorem scene_padding_matches_mini_player :
  forall (currentSong : option DownloadedSong) (currentRoute : JsValue)
         (android : bool),
    scenePadding (TabsLayout currentSong currentRoute android)
    = [if showsMiniPlayer (TabsLayout currentSong currentRoute android)
       then MINI_PLAYER_HEIGHT else 0].
Proof.
  intros [song|] [|t|f] android; unfold TabsLayout, strictNotEqual; simpl;
    try reflexivity.
  destruct (t =? "/player")%string; reflexivity.
Qed.

(** X19. The mini player is never mounted hidden: it is in the rendered
    tree exactly when it is displayed, so the ['none'] branch of the
    overlay's [display] style is never taken. *)
Theorem mini_player_never_mounted_hidden :
  forall (currentSong : option DownloadedSong) (currentRoute : JsValue)
         (android : bool),
    mountsMiniPlayer (TabsLayout currentSong currentRoute android)
    = showsMiniPlayer (TabsLayout currentSong currentRoute android).
Proof.
  intros [song|] [|t|f] android; unfold TabsLayout, strictNotEqual; simpl;
    try reflexivity.
  destruct (t =? "/player")%string; reflexivity.
Qed.

Lemma stopSong_resolved_clears_song oracle w w' :
  runOp OpStopSong oracle w = (Resolved tt, w') ->
  currentSong (state w') = None.
Proof.
  unfold runOp. simpl script. unfold stopSong.
  destruct (playbackInstance (state w)) as [h|]; simpl.
  - destruct (oracle 0%nat); simpl; [|discriminate].
    unfold rest. destruct (oracle 1%nat); simpl; [|discriminate].
    intros H. injection H as <-. reflexivity.
  - intros H. injection H as <-. reflexivity.
Qed.

(** X20. The mini player follows playback.  Once [playSong] has gone
    through, it is shown unless the value read from [router.pathname] is the
    string ['/player']; read from the router object of [useRouter()], that
    value is [undefined], so it is shown on every screen, the player screen
    included.  Once [stopSong] has resolved it is shown on no screen,
    whatever that value. *)
Theorem mini_player_follows_playback :
  forall (w w2 : World) (song : DownloadedSong) (oracle1 oracle2 : nat -> Response)
         (currentRoute : JsValue) (activeRoute : string) (android : bool),
    (forall k, exists st, oracle1 k = Resolves st) ->
    runOp OpStopSong oracle2 (snd (runOp (OpPlaySong song) oracle1 w))
    = (Resolved tt, w2) ->
    showsMiniPlayer
      (TabsLayout (currentSong (state (snd (runOp (OpPlaySong song) oracle1 w))))
                  currentRoute android)
    = strictNotEqual currentRoute "/player" /\
    showsMiniPlayer
      (TabsLayoutOn
         (currentSong (state (snd (runOp (OpPlaySong song) oracle1 w))))
         activeRoute android)
    = true /\
    showsMiniPlayer (TabsLayout (currentSong (state w2)) currentRoute android)
    = false /\
    showsMiniPlayer (TabsLayoutOn (currentSong (state w2)) activeRoute android)
    = false.
Proof.
  intros w w2 song oracle1 oracle2 route active android Hres Hstop.
  destruct (playSong_resolving w song oracle1 Hres) as [w1 [Hrun [Hc _]]].
  rewrite Hrun in *. simpl in *.
  rewrite Hc, (stopSong_resolved_clears_song _ _ _ Hstop).
  unfold TabsLayoutOn, TabsLayout, strictNotEqual. simpl.
  destruct (strictEqual route "/player"); repeat split; reflexivity.
Qed.

(** [songA] is started and stopped; the tab shell is rendered on the player
    screen, and with the value ['/library'] for [router.pathname]. *)
Lemma mini_player_follows_playback_witness :
  showsMiniPlayer
    (TabsLayout
       (currentSong (state (snd (runOp (OpPlaySong songA) allResolve initialWorld))))
       (JsString "/library") true)
  = strictNotEqual (JsString "/library") "/player" /\
  showsMiniPlayer
    (TabsLayoutOn
       (currentSong (state (snd (runOp (OpPlaySong songA) allResolve initialWorld))))
       "/player" true)
  = true /\
  showsMiniPlayer
    (TabsLayout
       (currentSong
          (state (snd (runOp OpStopSong allResolve
                             (snd (runOp (OpPlaySong songA) allResolve
                                         initialWorld))))))
       (JsString "/library") true)
  = false /\
  showsMiniPlayer
    (TabsLayoutOn
       (currentSong
          (state (snd (runOp OpStopSong allResolve
                             (snd (runOp (OpPlaySong songA) allResolve
                                         initialWorld))))))
       "/player" true)
  = false.
Proof.
  apply (mini_player_follows_playback
           initialWorld
           (snd (runOp OpStopSong allResolve
                       (snd (runOp (OpPlaySong songA) allResolve initialWorld))))
           songA allResolve allResolve (JsString "/library") "/player" true).
  - intros k. exists StatusNotLoaded. reflexivity.
  - reflexivity.
Defined.
